(** * signal-filter-visual: IIR filter design engine and real-time cascade

    A shallow embedding of
    - [src/audio/analogPrototypes.ts] (Butterworth, Chebyshev I, Bessel poles),
    - [src/audio/filterDesign.ts] (bilinear transform, conjugate pairing,
      second-order sections, frequency grid, [designFilter]),
    - the [FilterProcessor] audio worklet embedded in [audioEngine.ts], and
      [sendCoefficients] of the same file,
    - [src/audio/butterworth.ts] (the earlier Butterworth-only module).

    JavaScript numbers are read as real numbers: [+ - * /] are the field
    operations of [R], [Math.cos], [Math.sin], [Math.tan], [Math.sqrt] are
    the functions of the same name, and decimal literals denote the decimal
    they spell.  Rounding, NaN and the infinities are outside this model. *)

From Stdlib Require Import Reals Lra Lia ZArith List Bool Permutation.
Import ListNotations.
Local Open Scope R_scope.

(** ** The [Math] functions the sources call *)

Module Math.

Definition abs (x : R) : R := Rabs x.
Definition max (x y : R) : R := Rmax x y.
Definition pow (x y : R) : R := Rpower x y.
Definition asinh (x : R) : R := arcsinh x.
(* [Math.acosh] on its domain [1 <= x]. *)
Definition acosh (x : R) : R := ln (x + sqrt (x * x - 1)).
Definition log10 (x : R) : R := ln x / ln 10.

(* [Math.atan2 y x], by quadrant. *)
Definition atan2 (y x : R) : R :=
  if Rlt_dec 0 x then atan (y / x)
  else if Rlt_dec x 0 then
    (if Rlt_dec y 0 then atan (y / x) - PI else atan (y / x) + PI)
  else if Rlt_dec 0 y then PI / 2
  else if Rlt_dec y 0 then - (PI / 2)
  else 0.

End Math.

(** The test [x < y] on numbers, as a boolean. *)
Definition ltb (x y : R) : bool := if Rlt_dec x y then true else false.

(** [for (let k = 0; k < n; k++)] visits [0, 1, ..., n-1]; nothing when
    [n <= 0]. *)
Definition range (n : Z) : list Z := map Z.of_nat (seq 0 (Z.to_nat n)).

(** ** [types.ts] *)

Inductive FilterFamily := butterworth | chebyshev | bessel.
Inductive ResponseType := lowpass | highpass.

Record FilterParams := mkParams {
  family : FilterFamily;
  type : ResponseType;
  order : Z;
  cutoffFrequency : R;
  rippleDb : R
}.

Record Complex := mkC { re : R; im : R }.

Record SOSSection := mkSOS {
  b : R * R * R;
  a : R * R * R
}.

Record FilterDesignResult := mkResult {
  poles : list Complex;
  zeros : list Complex;
  sos : list SOSSection;
  frequencies : list R;
  magnitudeDb : list R;
  phase : list R
}.

(** ** [analogPrototypes.ts] *)

Definition butterworthPoles (order : Z) : list Complex :=
  map (fun k =>
         let angle := (PI * (2 * IZR k + IZR order + 1)) / (2 * IZR order) in
         mkC (cos angle) (sin angle))
      (range order).

Record ChebyshevResult := mkCheb {
  cheb_poles : list Complex;
  passbandToDb3Scale : R
}.

Definition chebyshevPoles (order : Z) (rippleDb : R) : ChebyshevResult :=
  let eps := sqrt (Math.pow 10 (rippleDb / 10) - 1) in
  let mu := (1 / IZR order) * Math.asinh (1 / eps) in
  let poles :=
    map (fun k =>
           let theta := (PI * (2 * IZR k + 1)) / (2 * IZR order) in
           mkC (- sinh mu * sin theta) (cosh mu * cos theta))
        (range order) in
  let scale := cosh ((1 / IZR order) * Math.acosh (1 / eps)) in
  mkCheb poles scale.

Record BesselEntry := mkEntry {
  entry_poles : list Complex;
  omega3dB : R
}.

(** The lookup table [DATA] of [besselPoles]; [None] is a missing key. *)
Definition DATA (order : Z) : option BesselEntry :=
  match order with
  | 1%Z => Some (mkEntry [mkC (-1.0) 0] 1.0)
  | 2%Z => Some (mkEntry [mkC (-1.1016) 0.6368; mkC (-1.1016) (-0.6368)] 1.3617)
  | 3%Z => Some (mkEntry [mkC (-1.0474) 0.9992; mkC (-1.0474) (-0.9992);
                          mkC (-1.3227) 0] 1.7557)
  | 4%Z => Some (mkEntry [mkC (-0.9953) 1.2571; mkC (-0.9953) (-1.2571);
                          mkC (-1.3707) 0.4103; mkC (-1.3707) (-0.4103)] 2.1139)
  | 5%Z => Some (mkEntry [mkC (-0.9576) 1.4711; mkC (-0.9576) (-1.4711);
                          mkC (-1.381) 0.7179; mkC (-1.381) (-0.7179);
                          mkC (-1.3851) 0] 2.4274)
  | 6%Z => Some (mkEntry [mkC (-0.9318) 1.6617; mkC (-0.9318) (-1.6617);
                          mkC (-1.3226) 0.9715; mkC (-1.3226) (-0.9715);
                          mkC (-1.3836) 0.1073; mkC (-1.3836) (-0.1073)] 2.7034)
  | 7%Z => Some (mkEntry [mkC (-0.9104) 1.8375; mkC (-0.9104) (-1.8375);
                          mkC (-1.2629) 1.1923; mkC (-1.2629) (-1.1923);
                          mkC (-1.378) 0.3213; mkC (-1.378) (-0.3213);
                          mkC (-1.3797) 0] 2.9517)
  | 8%Z => Some (mkEntry [mkC (-0.8955) 2.0044; mkC (-0.8955) (-2.0044);
                          mkC (-1.2062) 1.3926; mkC (-1.2062) (-1.3926);
                          mkC (-1.3683) 0.5287; mkC (-1.3683) (-0.5287);
                          mkC (-1.378) 0.0569; mkC (-1.378) (-0.0569)] 3.1796)
  | _ => None
  end.

(** [DATA[2]!.poles]: the non-null assertion holds, the key 2 is present. *)
Definition besselPoles (order : Z) : list Complex :=
  match DATA order with
  | None =>
      match DATA 2 with
      | Some entry2 => entry_poles entry2
      | None => []
      end
  | Some entry =>
      let scale := omega3dB entry in
      map (fun p => mkC (re p / scale) (im p / scale)) (entry_poles entry)
  end.

(** ** [filterDesign.ts] *)

Definition bilinear (s : Complex) (sampleRate : R) : Complex :=
  let T := 1 / sampleRate in
  let halfT := T / 2 in
  let nRe := 1 + re s * halfT in
  let nIm := im s * halfT in
  let dRe := 1 - re s * halfT in
  let dIm := - im s * halfT in
  let dMag2 := dRe * dRe + dIm * dIm in
  mkC ((nRe * dRe + nIm * dIm) / dMag2) ((nIm * dRe - nRe * dIm) / dMag2).

Definition getAnalogPoles (params : FilterParams) : list Complex :=
  match family params with
  | butterworth => butterworthPoles (order params)
  | chebyshev => cheb_poles (chebyshevPoles (order params) (rippleDb params))
  | bessel => besselPoles (order params)
  end.

(** [AnalogSOS.poles] has type [[Complex] | [Complex, Complex]]. *)
Inductive AnalogSOS :=
| OnePole (p : Complex)
| TwoPoles (p q : Complex).

Definition c0 : Complex := mkC 0 0.

(** [used[i] = true]. *)
Fixpoint mark (i : nat) (used : list bool) : list bool :=
  match used, i with
  | [], _ => []
  | _ :: u, O => true :: u
  | x :: u, S i' => x :: mark i' u
  end.

(** The test of the inner loop of [pairConjugatePoles] at index [j]. *)
Definition isPartner (poles : list Complex) (used : list bool) (i j : nat) : bool :=
  negb (nth j used false) &&
  (ltb (Math.abs (re (nth i poles c0) - re (nth j poles c0))) 1e-10 &&
   ltb (Math.abs (im (nth i poles c0) + im (nth j poles c0))) 1e-10).

(** The inner loop: the first [j] in [i+1 .. length-1] that is unused and a
    conjugate of [poles[i]] within the tolerance. *)
Definition findPartner (poles : list Complex) (used : list bool) (i : nat) : option nat :=
  find (isPartner poles used i) (seq (S i) (length poles - S i)).

(** One iteration of the outer loop, on the pair ([used], [sections]). *)
Definition pairStep (poles : list Complex) (st : list bool * list AnalogSOS) (i : nat)
  : list bool * list AnalogSOS :=
  let (used, sections) := st in
  if nth i used false then st
  else if ltb (Math.abs (im (nth i poles c0))) 1e-10 then
    (mark i used, sections ++ [OnePole (mkC (re (nth i poles c0)) 0)])
  else
    match findPartner poles used i with
    | Some j =>
        (mark j (mark i used),
         sections ++ [TwoPoles (nth i poles c0) (nth j poles c0)])
    | None => (mark i used, sections ++ [OnePole (nth i poles c0)])
    end.

Definition pairConjugatePoles (poles : list Complex) : list AnalogSOS :=
  snd (fold_left (pairStep poles) (seq 0 (length poles))
                 (repeat false (length poles), [])).

Definition zeroZ (params : FilterParams) : R :=
  match type params with lowpass => -1 | highpass => 1 end.

Definition evalAt (params : FilterParams) : R :=
  match type params with lowpass => 1 | highpass => -1 end.

Definition omegaA (params : FilterParams) (sampleRate : R) : R :=
  let omegaD := (2 * PI * cutoffFrequency params) / sampleRate in
  2 * sampleRate * tan (omegaD / 2).

Record SOSBuild := mkBuild {
  b_sos : list SOSSection;
  zPoles : list Complex;
  zZeros : list Complex
}.

(** The body of the loop of [buildSOS] for one analog section. *)
Definition buildSection (params : FilterParams) (sampleRate : R)
           (acc : SOSBuild) (section : AnalogSOS) : SOSBuild :=
  let zeroZ := zeroZ params in
  let evalAt := evalAt params in
  match section with
  | OnePole p0 =>
      let sScaled := mkC (omegaA params sampleRate * re p0) 0 in
      let zp := bilinear sScaled sampleRate in
      let a1 := - re zp in
      let b1Raw := - zeroZ in
      let numAtEval := 1 + b1Raw * evalAt in
      let denAtEval := 1 + a1 * evalAt in
      let g := denAtEval / numAtEval in
      mkBuild (b_sos acc ++ [mkSOS (g, g * b1Raw, 0) (1, a1, 0)])
              (zPoles acc ++ [zp])
              (zZeros acc ++ [mkC zeroZ 0])
  | TwoPoles p0 p1 =>
      let s1 := mkC (omegaA params sampleRate * re p0)
                    (omegaA params sampleRate * im p0) in
      let s2 := mkC (omegaA params sampleRate * re p1)
                    (omegaA params sampleRate * im p1) in
      let zp1 := bilinear s1 sampleRate in
      let zp2 := bilinear s2 sampleRate in
      let a1 := - (re zp1 + re zp2) in
      let a2 := re zp1 * re zp2 - im zp1 * im zp2 in
      let b1Raw := -2 * zeroZ in
      let b2Raw := zeroZ * zeroZ in
      let numAtEval := 1 + b1Raw * evalAt + b2Raw * evalAt * evalAt in
      let denAtEval := 1 + a1 * evalAt + a2 * evalAt * evalAt in
      let g := denAtEval / numAtEval in
      mkBuild (b_sos acc ++ [mkSOS (g, g * b1Raw, g * b2Raw) (1, a1, a2)])
              (zPoles acc ++ [zp1; zp2])
              (zZeros acc ++ [mkC zeroZ 0; mkC zeroZ 0])
  end.

Definition buildSOS (params : FilterParams) (sampleRate : R)
           (analogPoles : list Complex) : SOSBuild :=
  fold_left (buildSection params sampleRate)
            (pairConjugatePoles analogPoles)
            (mkBuild [] [] []).

Record Response := mkResponse {
  r_frequencies : list R;
  r_magnitudeDb : list R;
  r_phase : list R
}.

(** The frequency of grid point [i]. *)
Definition gridFrequency (sampleRate : R) (numPoints i : nat) : R :=
  let nyquist := sampleRate / 2 in
  (INR i / INR numPoints) * nyquist.

(** The inner loop of [evalSOS]: the product of the section responses. *)
Definition accumulate (cw sw c2w s2w : R) (total : R * R) (s : SOSSection) : R * R :=
  let '(b0, b1, b2) := b s in
  let '(_, a1, a2) := a s in
  let (totalRe, totalIm) := total in
  let nRe := b0 + b1 * cw + b2 * c2w in
  let nIm := - b1 * sw - b2 * s2w in
  let dRe := 1 + a1 * cw + a2 * c2w in
  let dIm := - a1 * sw - a2 * s2w in
  let dMag2 := dRe * dRe + dIm * dIm in
  let hRe := (nRe * dRe + nIm * dIm) / dMag2 in
  let hIm := (nIm * dRe - nRe * dIm) / dMag2 in
  (totalRe * hRe - totalIm * hIm, totalRe * hIm + totalIm * hRe).

Definition totalResponse (sos : list SOSSection) (sampleRate f : R) : R * R :=
  let omega := (2 * PI * f) / sampleRate in
  fold_left (accumulate (cos omega) (sin omega) (cos (2 * omega)) (sin (2 * omega)))
            sos (1, 0).

Definition evalSOS (sos : list SOSSection) (sampleRate : R) (numPoints : nat) : Response :=
  let grid := map (gridFrequency sampleRate numPoints) (seq 0 numPoints) in
  let totals := map (totalResponse sos sampleRate) grid in
  mkResponse
    grid
    (map (fun t => let (totalRe, totalIm) := t : R * R in
                   let mag := sqrt (totalRe * totalRe + totalIm * totalIm) in
                   20 * Math.log10 (Math.max mag 1e-12)) totals)
    (map (fun t => let (totalRe, totalIm) := t : R * R in
                   Math.atan2 totalIm totalRe) totals).

Definition designFilter (params : FilterParams) (sampleRate : R) (numFreqPoints : nat)
  : FilterDesignResult :=
  let analogPoles := getAnalogPoles params in
  let built := buildSOS params sampleRate analogPoles in
  let resp := evalSOS (b_sos built) sampleRate numFreqPoints in
  mkResult (zPoles built) (zZeros built) (b_sos built)
           (r_frequencies resp) (r_magnitudeDb resp) (r_phase resp).

(** ** The [FilterProcessor] worklet of [audioEngine.ts] *)

(** The five coefficients of one section, as stored in [oldCoeffs],
    [newCoeffs] and [incoming]. *)
Record Coeffs := mkCoeffs { b0 : R; b1 : R; b2 : R; a1 : R; a2 : R }.

(** One entry of [this.sections]: [{...c, x1, x2, y1, y2}]. *)
Record SectionState := mkSection {
  coeffs : Coeffs;
  x1 : R; x2 : R; y1 : R; y2 : R
}.

Record FilterProcessor := mkProc {
  sections : list SectionState;
  oldCoeffs : option (list Coeffs);      (* [None] is [null] *)
  newCoeffs : option (list Coeffs);
  interpPos : nat;
  interpFrames : nat;
  interpolating : bool
}.

Definition constructor : FilterProcessor := mkProc [] None None 0 256 false.

(** [sos.map((s) => ({b0: s.b[0], ...}))]; the [?? 0] defaults never fire on
    the three-element arrays of [SOSSection]. *)
Definition incoming (sos : list SOSSection) : list Coeffs :=
  map (fun s => let '(b0, b1, b2) := b s in
                let '(_, a1, a2) := a s in
                mkCoeffs b0 b1 b2 a1 a2) sos.

Definition _updateCoefficients (this : FilterProcessor) (sos : list SOSSection)
  : FilterProcessor :=
  let incoming := incoming sos in
  if negb (length incoming =? length (sections this))%nat then
    mkProc (map (fun c => mkSection c 0 0 0 0) incoming)
           (oldCoeffs this) (newCoeffs this)
           (interpPos this) (interpFrames this) false
  else
    mkProc (sections this)
           (Some (map (fun s => mkCoeffs (b0 (coeffs s)) (b1 (coeffs s)) (b2 (coeffs s))
                                         (a1 (coeffs s)) (a2 (coeffs s)))
                      (sections this)))
           (Some incoming)
           0 (interpFrames this) true.

(** [o + alpha * (n - o)] on each of the five coefficients. *)
Definition lerp (alpha : R) (o n : Coeffs) : Coeffs :=
  mkCoeffs (b0 o + alpha * (b0 n - b0 o))
           (b1 o + alpha * (b1 n - b1 o))
           (b2 o + alpha * (b2 n - b2 o))
           (a1 o + alpha * (a1 n - a1 o))
           (a2 o + alpha * (a2 n - a2 o)).

Definition setCoeffs (sec : SectionState) (c : Coeffs) : SectionState :=
  mkSection c (x1 sec) (x2 sec) (y1 sec) (y2 sec).

(** The interpolation loop over [s < this.sections.length].  [None] is the
    [TypeError] raised when [oldCoeffs[s]] or [newCoeffs[s]] is undefined. *)
Fixpoint blend (alpha : R) (secs : list SectionState) (olds news : list Coeffs)
  : option (list SectionState) :=
  match secs with
  | [] => Some []
  | sec :: secs' =>
      match olds, news with
      | o :: olds', n :: news' =>
          match blend alpha secs' olds' news' with
          | Some rest => Some (setCoeffs sec (lerp alpha o n) :: rest)
          | None => None
          end
      | _, _ => None
      end
  end.

(** The snap loop: every section takes the coefficients of [newCoeffs[s]]. *)
Fixpoint snap (secs : list SectionState) (news : list Coeffs)
  : option (list SectionState) :=
  match secs with
  | [] => Some []
  | sec :: secs' =>
      match news with
      | n :: news' =>
          match snap secs' news' with
          | Some rest =>
              Some (setCoeffs sec (mkCoeffs (b0 n) (b1 n) (b2 n) (a1 n) (a2 n)) :: rest)
          | None => None
          end
      | [] => None
      end
  end.

(** The [if (this.interpolating) { ... }] block run before each sample. *)
Definition advance (this : FilterProcessor) : option FilterProcessor :=
  if interpolating this then
    match oldCoeffs this, newCoeffs this with
    | Some olds, Some news =>
        let alpha := INR (interpPos this) / INR (interpFrames this) in
        match blend alpha (sections this) olds news with
        | None => None
        | Some secs =>
            let pos := S (interpPos this) in
            if (interpFrames this <=? pos)%nat then
              match snap secs news with
              | None => None
              | Some secs' =>
                  Some (mkProc secs' (oldCoeffs this) (newCoeffs this)
                               pos (interpFrames this) false)
              end
            else
              Some (mkProc secs (oldCoeffs this) (newCoeffs this)
                           pos (interpFrames this) true)
        end
    | _, _ => None
    end
  else Some this.

(** [for (const sec of this.sections)]: the biquad difference equation and the
    shift of the delay memory. *)
Fixpoint cascade (secs : list SectionState) (sample : R) : list SectionState * R :=
  match secs with
  | [] => ([], sample)
  | sec :: rest =>
      let c := coeffs sec in
      let y := b0 c * sample + b1 c * x1 sec + b2 c * x2 sec
               - a1 c * y1 sec - a2 c * y2 sec in
      let (rest', out) := cascade rest y in
      (mkSection c sample (x1 sec) y (y1 sec) :: rest', out)
  end.

(** One iteration of the loop over [input]. *)
Definition processSample (this : FilterProcessor) (x : R)
  : option (FilterProcessor * R) :=
  match advance this with
  | None => None
  | Some this' =>
      let (secs, out) := cascade (sections this') x in
      Some (mkProc secs (oldCoeffs this') (newCoeffs this')
                   (interpPos this') (interpFrames this') (interpolating this'),
            out)
  end.

Fixpoint processSamples (this : FilterProcessor) (input : list R)
  : option (FilterProcessor * list R) :=
  match input with
  | [] => Some (this, [])
  | x :: rest =>
      match processSample this x with
      | None => None
      | Some (this', y) =>
          match processSamples this' rest with
          | None => None
          | Some (this'', ys) => Some (this'', y :: ys)
          end
      end
  end.

(** [process(inputs, outputs)]; [input] is [None] when [inputs[0]?.[0]] or
    [outputs[0]?.[0]] is missing.  The result is the processor afterwards and
    the samples written to the output. *)
Definition process (this : FilterProcessor) (input : option (list R))
  : option (FilterProcessor * list R) :=
  match input with
  | None => Some (this, [])
  | Some xs =>
      match sections this with
      | [] => Some (this, xs)
      | _ :: _ => processSamples this xs
      end
  end.

(** The audio system calls [process] once per block, in order. *)
Fixpoint processBlocks (this : FilterProcessor) (blocks : list (list R))
  : option (FilterProcessor * list R) :=
  match blocks with
  | [] => Some (this, [])
  | block :: rest =>
      match process this (Some block) with
      | None => None
      | Some (this', out) =>
          match processBlocks this' rest with
          | None => None
          | Some (this'', outs) => Some (this'', out ++ outs)
          end
      end
  end.


(** The normalized transfer function of one section,
    [H(z) = (b0 + b1 z^-1 + b2 z^-2) / (1 + a1 z^-1 + a2 z^-2)]. *)
Definition evalSection (s : SOSSection) (z : R) : R :=
  let '(b0, b1, b2) := b s in
  let '(_, a1, a2) := a s in
  (b0 + b1 * / z + b2 * (/ z * / z)) / (1 + a1 * / z + a2 * (/ z * / z)).

(** The magnitude of a complex number. *)
Definition Cabs (z : Complex) : R := sqrt (re z * re z + im z * im z).

(** ** [sendCoefficients] of [audioEngine.ts] *)

(** [{...params, cutoffFrequency: Math.min(params.cutoffFrequency,
    nyquist * 0.95)}]. *)
Definition clamped (params : FilterParams) (sampleRate : R) : FilterParams :=
  let nyquist := sampleRate / 2 in
  mkParams (family params) (type params) (order params)
           (Rmin (cutoffFrequency params) (nyquist * 0.95))
           (rippleDb params).

(** The [sos] field of the message [sendCoefficients] posts to the worklet
    (with an audio context and a worklet node present); [designFilter] runs
    with its default of 1024 frequency points. *)
Definition sendCoefficients (params : FilterParams) (sampleRate : R) : list SOSSection :=
  let result := designFilter (clamped params sampleRate) sampleRate 1024 in
  map (fun section => mkSOS (b section) (a section)) (sos result).

(** ** [butterworth.ts] *)

Module Butterworth.

(** [BiquadSection] is imported from [types.ts], which does not declare it;
    its two fields are read off [getButterworthSections]. *)
Record BiquadSection := mkBiquad { Q : R; isFirstOrder : bool }.

(** [Math.floor(order / 2)] is [order / 2] on integers, and [%] is the
    remainder with the sign of the dividend. *)
Definition getButterworthSections (order : Z) : list BiquadSection :=
  let numBiquads := (order / 2)%Z in
  map (fun k =>
         let angle := (PI * (2 * IZR k + 1)) / (2 * IZR order) in
         let Q := 1 / (2 * cos angle) in
         mkBiquad Q false)
      (range numBiquads)
  ++ (if (Z.rem order 2 =? 1)%Z then [mkBiquad 0.5 true] else []).

Definition getAnalogPoles (order : Z) : list Complex :=
  map (fun k =>
         let angle := (PI * (2 * IZR k + IZR order + 1)) / (2 * IZR order) in
         mkC (cos angle) (sin angle))
      (range order).

Definition bilinearTransform (sPole : Complex) (analogCutoff sampleRate : R) : Complex :=
  let T := 1 / sampleRate in
  let sRe := analogCutoff * re sPole in
  let sIm := analogCutoff * im sPole in
  let halfT := T / 2 in
  let numRe := 1 + sRe * halfT in
  let numIm := sIm * halfT in
  let denRe := 1 - sRe * halfT in
  let denIm := - sIm * halfT in
  let denMagSq := denRe * denRe + denIm * denIm in
  mkC ((numRe * denRe + numIm * denIm) / denMagSq)
      ((numIm * denRe - numRe * denIm) / denMagSq).

Record PolesAndZeros := mkPZ { pz_poles : list Complex; pz_zeros : list Complex }.

(** [Array.from({ length: order }, ...)] has [order] entries, none for a
    negative [order]. *)
Definition getZPlanePolesAndZeros (params : FilterParams) (sampleRate : R) : PolesAndZeros :=
  let omegaD := (2 * PI * cutoffFrequency params) / sampleRate in
  let omegaA := (2 * sampleRate) * tan (omegaD / 2) in
  let analogPoles := getAnalogPoles (order params) in
  let poles := map (fun p => bilinearTransform p omegaA sampleRate) analogPoles in
  let zeroLocation := match type params with lowpass => -1 | highpass => 1 end in
  let zeros := repeat (mkC zeroLocation 0) (Z.to_nat (order params)) in
  mkPZ poles zeros.

(** The product loop over the zeros, and over the poles:
    [acc <- acc * (ejw - z)]. *)
Definition timesDifference (ejw : Complex) (acc : R * R) (z : Complex) : R * R :=
  let (accRe, accIm) := acc in
  let dRe := re ejw - re z in
  let dIm := im ejw - im z in
  (accRe * dRe - accIm * dIm, accRe * dIm + accIm * dRe).

(** The magnitude in dB and the phase at grid point [i], before the
    normalization. *)
Definition responseAt (pz : PolesAndZeros) (sampleRate : R) (numPoints i : nat) : R * R :=
  let freq := (INR i / INR numPoints) * (sampleRate / 2) in
  let omega := (2 * PI * freq) / sampleRate in
  let ejw := mkC (cos omega) (sin omega) in
  let (numRe, numIm) := fold_left (timesDifference ejw) (pz_zeros pz) (1, 0) in
  let (denRe, denIm) := fold_left (timesDifference ejw) (pz_poles pz) (1, 0) in
  let denMag := sqrt (denRe * denRe + denIm * denIm) in
  let numMag := sqrt (numRe * numRe + numIm * numIm) in
  let mag := numMag / denMag in
  (20 * Math.log10 (Math.max mag 1e-10),
   Math.atan2 (numIm * denRe - numRe * denIm) (numRe * denRe + numIm * denIm)).

(** [normIdx] is read only when the arrays are non-empty; with
    [numPoints = 0] both loops are empty and the arrays stay empty. *)
Definition computeFrequencyResponse (params : FilterParams) (sampleRate : R)
           (numPoints : nat) : Response :=
  let pz := getZPlanePolesAndZeros params sampleRate in
  let frequencies :=
    map (fun i => (INR i / INR numPoints) * (sampleRate / 2)) (seq 0 numPoints) in
  let raw := map (responseAt pz sampleRate numPoints) (seq 0 numPoints) in
  let magnitudeDb := map fst raw in
  let phase := map snd raw in
  let normIdx := match type params with
                 | lowpass => 0%nat
                 | highpass => (numPoints - 1)%nat
                 end in
  let normVal := nth normIdx magnitudeDb 0 in
  mkResponse frequencies (map (fun m => m - normVal) magnitudeDb) phase.

End Butterworth.

(** ** The states the worklet can be in *)

(** The processor as constructed, after any messages and any calls of
    [process] that returned. *)
Inductive reachable : FilterProcessor -> Prop :=
| reach_constructor : reachable constructor
| reach_update this msg :
    reachable this -> reachable (_updateCoefficients this msg)
| reach_process this input this' out :
    reachable this -> process this input = Some (this', out) -> reachable this'.

(** ** Auxiliary notions used by the statements and proofs *)

(** The order-2 entry of the Bessel table. *)
Definition DATA2 : BesselEntry :=
  mkEntry [mkC (-1.1016) 0.6368; mkC (-1.1016) (-0.6368)] 1.3617.

(** The number of indices marked in [used]. *)
Definition countUsed (used : list bool) : nat := length (filter (fun x => x) used).

(** The number of poles a section holds. *)
Definition sectionSize (s : AnalogSOS) : nat :=
  match s with OnePole _ => 1 | TwoPoles _ _ => 2 end.

(** The poles of one section. *)
Definition sectionPoles (s : AnalogSOS) : list Complex :=
  match s with OnePole p => [p] | TwoPoles p q => [p; q] end.

(** The number of poles all sections hold together. *)
Definition poleCount (secs : list AnalogSOS) : nat :=
  fold_right (fun s n => (sectionSize s + n)%nat) 0%nat secs.

(** The loop invariant of the outer loop: every index below the counter is
    used, and the sections hold as many poles as there are used indices. *)
Definition pairInv (n i : nat) (st : list bool * list AnalogSOS) : Prop :=
  length (fst st) = n /\
  (forall k, (k < i)%nat -> nth k (fst st) false = true) /\
  poleCount (snd st) = countUsed (fst st).

(** The poles at the used indices. *)
Fixpoint select (used : list bool) (poles : list Complex) : list Complex :=
  match used, poles with
  | u :: used', p :: poles' =>
      if u then p :: select used' poles' else select used' poles'
  | _, _ => []
  end.

(** A pole the pairing reads as real is stored with imaginary part 0. *)
Definition realified (p : Complex) : Complex :=
  if ltb (Math.abs (im p)) 1e-10 then mkC (re p) 0 else p.

(** The poles of all sections, in order. *)
Definition allPoles (secs : list AnalogSOS) : list Complex :=
  flat_map sectionPoles secs.

(** The second loop invariant: up to [realified], the sections hold exactly
    the poles at the used indices, each once. *)
Definition pairPerm (poles : list Complex) (st : list bool * list AnalogSOS) : Prop :=
  Permutation (map realified (allPoles (snd st)))
              (map realified (select (fst st) poles)).

(** What a valid specification promises about the parameters the prototypes
    read: the Chebyshev ripple is positive. *)
Definition rippleOk (params : FilterParams) : Prop :=
  family params = chebyshev -> 0 < rippleDb params.

(** A one-pole section carries the real part of an input pole; a two-pole
    section carries two input poles whose imaginary parts have opposite
    signs. *)
Definition goodSection (poles : list Complex) (s : AnalogSOS) : Prop :=
  match s with
  | OnePole p => exists q, In q poles /\ re p = re q
  | TwoPoles p q => In p poles /\ In q poles /\ im p * im q < 0
  end.

(** The same for poles of the open left half-plane. *)
Definition leftSection (s : AnalogSOS) : Prop :=
  match s with
  | OnePole p => re p < 0
  | TwoPoles p q => re p < 0 /\ re q < 0 /\ im p * im q < 0
  end.

(** The specifications the statements below are tried on. *)
Definition spec_butter4 : FilterParams := mkParams butterworth lowpass 4 1000 1.

(** C4, as the claim states it: for an order of at least 1 (and a positive
    Chebyshev ripple) the generator returns exactly [order] poles, all in the
    open left half-plane. *)
Definition prototypeClaim (params : FilterParams) : Prop :=
  (1 <= order params)%Z ->
  rippleOk params ->
  Z.of_nat (length (getAnalogPoles params)) = order params /\
  Forall (fun p => re p < 0) (getAnalogPoles params).

Definition spec_bessel9 : FilterParams := mkParams bessel lowpass 9 1000 1.

Definition spec_cheb3 : FilterParams := mkParams chebyshev highpass 3 2000 0.5.

Definition spec_bessel3_hp : FilterParams := mkParams bessel highpass 3 5000 1.

(** C6, as the claim states it: with at least one point the grid starts at
    0, ends at Nyquist and is uniformly spaced. *)
Definition gridClaim (params : FilterParams) (sampleRate : R) (numPoints : nat) : Prop :=
  let fr := frequencies (designFilter params sampleRate numPoints) in
  (1 <= numPoints)%nat ->
  nth 0 fr 0 = 0 /\
  nth (numPoints - 1) fr 0 = sampleRate / 2 /\
  exists d, forall i, (i < numPoints)%nat -> nth i fr 0 = INR i * d.

(** C8, as the claim states it: for a valid specification (order at least 1,
    positive cutoff and ripple) there are as many zeros as poles as the
    order, every zero at -1 for lowpass and at +1 for highpass. *)
Definition zerosClaim (params : FilterParams) (sampleRate : R) (n : nat) : Prop :=
  let r := designFilter params sampleRate n in
  (1 <= order params)%Z ->
  0 < cutoffFrequency params ->
  0 < rippleDb params ->
  Z.of_nat (length (zeros r)) = order params /\
  Z.of_nat (length (poles r)) = order params /\
  Forall (fun z => z = match type params with
                       | lowpass => mkC (-1) 0
                       | highpass => mkC 1 0
                       end) (zeros r).

(** Section-wise interpolation between two coefficient sets. *)
Definition lerpAll (alpha : R) (olds news : list Coeffs) : list Coeffs :=
  map (fun on => lerp alpha (fst on) (snd on)) (combine olds news).

(** The delay memory of a section. *)
Definition delays (s : SectionState) : R * R * R * R := (x1 s, x2 s, y1 s, y2 s).



(** A processor with one section, all coefficients 0: the constructor's
    processor after a first message with one section. *)
Definition oneSection : FilterProcessor :=
  _updateCoefficients constructor [mkSOS (0, 0, 0) (1, 0, 0)].

(** A message with one section whose [b0] is 1. *)
Definition unitMessage : list SOSSection := [mkSOS (1, 0, 0) (1, 0, 0)].

(** A first-order Butterworth lowpass with its cutoff at half of Nyquist. *)
Definition spec_butter1 : FilterParams := mkParams butterworth lowpass 1 11025 1.

(** The complex conjugate. *)
Definition conjugate (z : Complex) : Complex := mkC (re z) (- im z).

(** The unit circle of the z-plane. *)
Definition onUnitCircle (z : Complex) : Prop := re z * re z + im z * im z = 1.

(** The denominator of a section has both roots strictly inside the unit
    circle exactly when its coefficients lie in this triangle. *)
Definition stableSection (s : SOSSection) : Prop :=
  let '(_, a1, a2) := a s in
  Rabs a2 < 1 /\ Rabs a1 < 1 + a2.

(** The numerator of a section is a gain times [(1 - zeroZ z^-1)] or
    [(1 - zeroZ z^-1)^2], and the denominator is monic. *)
Definition sectionShape (zeroZ : R) (s : SOSSection) : Prop :=
  let '(b0, b1, b2) := b s in
  let '(a0, _, a2) := a s in
  a0 = 1 /\
  ((b1 = - zeroZ * b0 /\ b2 = 0 /\ a2 = 0) \/
   (b1 = -2 * zeroZ * b0 /\ b2 = b0)).

(** What the interpolation block relies on: while interpolating, both stored
    coefficient sets exist and have one entry per section. *)
Definition wellFormed (this : FilterProcessor) : Prop :=
  interpolating this = true ->
  exists olds news,
    oldCoeffs this = Some olds /\ newCoeffs this = Some news /\
    length (sections this) = length olds /\ length olds = length news.

(** The output of a cascade whose delay memory is all zero: the sample times
    the [b0] of every section in turn. *)
Definition throughZeroed (cs : list Coeffs) (x : R) : R :=
  fold_left (fun sample c => b0 c * sample) cs x.

(** A pole list in which every pole is either real within the tolerance or
    immediately followed by its conjugate within the tolerance, together with
    the sections this layout calls for. *)
Inductive adjacentPairs : list Complex -> list AnalogSOS -> Prop :=
| adjacent_nil : adjacentPairs [] []
| adjacent_real p rest secs :
    Math.abs (im p) < 1e-10 ->
    adjacentPairs rest secs ->
    adjacentPairs (p :: rest) (OnePole (mkC (re p) 0) :: secs)
| adjacent_pair p q rest secs :
    ~ Math.abs (im p) < 1e-10 ->
    Math.abs (re p - re q) < 1e-10 ->
    Math.abs (im p + im q) < 1e-10 ->
    adjacentPairs rest secs ->
    adjacentPairs (p :: q :: rest) (TwoPoles p q :: secs).

(** A section that did not come from the unmatched-pole fallback: a real
    pole, or a pole with its exact conjugate. *)
Definition paired (s : AnalogSOS) : Prop :=
  match s with
  | OnePole p => im p = 0
  | TwoPoles p q => q = conjugate p
  end.

(** One section of an assignment of pole indices to sections. *)
Inductive IndexSection :=
| IOne (i : nat)
| ITwo (i j : nat).

(** The indices a section takes, and the one the outer loop was at. *)
Definition indices (s : IndexSection) : list nat :=
  match s with IOne i => [i] | ITwo i j => [i; j] end.

Definition firstIndex (s : IndexSection) : nat :=
  match s with IOne i => i | ITwo i _ => i end.

(** The two tests of [pairConjugatePoles]: a pole read as real, and a pole
    read as the conjugate of another. *)
Definition nearReal (p : Complex) : Prop := Math.abs (im p) < 1e-10.

Definition conjugateMatch (p q : Complex) : Prop :=
  Math.abs (re p - re q) < 1e-10 /\ Math.abs (im p + im q) < 1e-10.

(** The section pushed for an index section: a lone pole is stored with
    imaginary part 0 when it is read as real and as it is otherwise. *)
Definition materialise (poles : list Complex) (s : IndexSection) : AnalogSOS :=
  match s with
  | IOne i => OnePole (realified (nth i poles c0))
  | ITwo i j => TwoPoles (nth i poles c0) (nth j poles c0)
  end.

(** Index [c] was taken as the partner of an index before [a]. *)
Definition takenBefore (assignment : list IndexSection) (a c : nat) : Prop :=
  exists a', (a' < a)%nat /\ In (ITwo a' c) assignment.

(** What [pairConjugatePoles] does with each index, by kind of pole.
    - A two-pole section [(a, c)]: pole [a] is not read as real, [c] comes
      after [a] and is read as its conjugate, and it is the first such index
      not already taken.
    - A one-pole section [a]: pole [a] is read as real, or it is unmatched:
      every later index read as its conjugate was already taken. *)
Definition pairedByKind (poles : list Complex) (assignment : list IndexSection) : Prop :=
  (forall a c, In (ITwo a c) assignment ->
     (a < c < length poles)%nat /\
     ~ nearReal (nth a poles c0) /\
     conjugateMatch (nth a poles c0) (nth c poles c0) /\
     forall k, (a < k < c)%nat ->
               conjugateMatch (nth a poles c0) (nth k poles c0) ->
               takenBefore assignment a k) /\
  (forall a, In (IOne a) assignment ->
     nearReal (nth a poles c0) \/
     (~ nearReal (nth a poles c0) /\
      forall c, (a < c < length poles)%nat ->
                conjugateMatch (nth a poles c0) (nth c poles c0) ->
                takenBefore assignment a c)).

(** The loop invariant that carries the assignment: the sections are those of
    an assignment that uses exactly the marked indices, each once, whose
    sections all start before the loop counter. *)
Definition assignInv (poles : list Complex) (i : nat)
           (st : list bool * list AnalogSOS) : Prop :=
  exists assignment,
    snd st = map (materialise poles) assignment /\
    NoDup (flat_map indices assignment) /\
    (forall k, In k (flat_map indices assignment) <->
               (k < length poles)%nat /\ nth k (fst st) false = true) /\
    (forall s, In s assignment -> (firstIndex s < i)%nat) /\
    pairedByKind poles assignment.

(** ** Basic facts *)

Lemma ltb_true (x y : R) : ltb x y = true <-> x < y.
Proof. unfold ltb; destruct (Rlt_dec x y); split; intros; try discriminate; tauto. Qed.

Lemma ltb_false (x y : R) : ltb x y = false <-> ~ x < y.
Proof. unfold ltb; destruct (Rlt_dec x y); split; intros; try discriminate; tauto. Qed.

(** Settles every comparison of concrete numbers in the goal. *)
Ltac ltb_decide :=
  repeat match goal with
         | |- context [ltb ?x ?y] =>
             first
               [ replace (ltb x y) with true
                   by (symmetry; apply ltb_true; unfold Math.abs, Rabs;
                       destruct (Rcase_abs _); lra)
               | replace (ltb x y) with false
                   by (symmetry; apply ltb_false; unfold Math.abs, Rabs;
                       destruct (Rcase_abs _); lra) ]
         end.

(** Splits an equation between structures into equations between numbers. *)
Ltac componentwise :=
  repeat match goal with
         | |- ?x = _ => lazymatch type of x with R => fail | _ => f_equal end
         end.

(** An invariant indexed by the loop counter holds after a counted loop. *)
Lemma fold_seq_inv {A : Type} (f : A -> nat -> A) (I : nat -> A -> Prop) (len : nat) :
  forall s acc,
    I s acc ->
    (forall i x, (s <= i < s + len)%nat -> I i x -> I (S i) (f x i)) ->
    I (s + len)%nat (fold_left f (seq s len) acc).
Proof.
  induction len as [|len IH]; intros s acc H0 Hstep; simpl.
  - now rewrite Nat.add_0_r.
  - replace (s + S len)%nat with (S s + len)%nat by lia.
    apply IH.
    + apply Hstep; [lia | exact H0].
    + intros i x Hi. apply Hstep. lia.
Qed.

(** ** The [used] array *)

Lemma mark_length (i : nat) (used : list bool) : length (mark i used) = length used.
Proof.
  revert i; induction used as [|x u IH]; intros [|i]; simpl; auto.
Qed.

Lemma mark_nth_same (i : nat) (used : list bool) :
  (i < length used)%nat -> nth i (mark i used) false = true.
Proof.
  revert i; induction used as [|x u IH]; intros [|i] H; simpl in *; try lia; auto.
  apply IH; lia.
Qed.

Lemma mark_nth_other (i k : nat) (used : list bool) :
  k <> i -> nth k (mark i used) false = nth k used false.
Proof.
  revert i k; induction used as [|x u IH]; intros [|i] [|k] H; simpl; auto; try congruence.
Qed.

Lemma mark_count (i : nat) (used : list bool) :
  (i < length used)%nat -> nth i used false = false ->
  countUsed (mark i used) = S (countUsed used).
Proof.
  unfold countUsed.
  revert i; induction used as [|x u IH]; intros [|i] Hlt Hnth; simpl in *; try lia.
  - subst x. reflexivity.
  - destruct x; simpl; rewrite IH; auto; lia.
Qed.

Lemma countUsed_all (used : list bool) :
  (forall k, (k < length used)%nat -> nth k used false = true) ->
  countUsed used = length used.
Proof.
  unfold countUsed.
  induction used as [|x u IH]; intros H; simpl; auto.
  assert (Hx : x = true) by (apply (H 0%nat); simpl; lia).
  subst x; simpl. f_equal. apply IH.
  intros k Hk. apply (H (S k)). simpl; lia.
Qed.

(** ** [pairConjugatePoles] *)

Lemma poleCount_app (s1 s2 : list AnalogSOS) :
  poleCount (s1 ++ s2) = (poleCount s1 + poleCount s2)%nat.
Proof. induction s1; simpl; lia. Qed.

Lemma findPartner_some poles used i j :
  findPartner poles used i = Some j ->
  (i < j < length poles)%nat /\ isPartner poles used i j = true.
Proof.
  unfold findPartner. intros H. apply find_some in H as [Hin Hp].
  apply in_seq in Hin. split; [lia | exact Hp].
Qed.

Lemma pairStep_inv poles i st :
  (i < length poles)%nat ->
  pairInv (length poles) i st -> pairInv (length poles) (S i) (pairStep poles st i).
Proof.
  intros Hi [Hlen [Hbelow Hcount]]. destruct st as [used secs]; simpl in *.
  unfold pairStep.
  destruct (nth i used false) eqn:Hu.
  - repeat split; simpl; auto.
    intros k Hk. destruct (Nat.eq_dec k i); [subst; auto | apply Hbelow; lia].
  - assert (Hone : forall p, pairInv (length poles) (S i)
                                     (mark i used, secs ++ [OnePole p])).
    { intros p. repeat split; simpl.
      - now rewrite mark_length.
      - intros k Hk. destruct (Nat.eq_dec k i).
        + subst. apply mark_nth_same. lia.
        + rewrite mark_nth_other by auto. apply Hbelow. lia.
      - rewrite poleCount_app, mark_count by (auto; lia). simpl. lia. }
    destruct (ltb _ _); [apply Hone|].
    destruct (findPartner poles used i) as [j|] eqn:Hf; [|apply Hone].
    apply findPartner_some in Hf as [Hj Hp].
    unfold isPartner in Hp. apply andb_prop in Hp as [Hnj _].
    apply negb_true_iff in Hnj.
    repeat split; simpl.
    + now rewrite !mark_length.
    + intros k Hk. destruct (Nat.eq_dec k j).
      * subst. apply mark_nth_same. rewrite mark_length. lia.
      * rewrite mark_nth_other by auto. destruct (Nat.eq_dec k i).
        -- subst. apply mark_nth_same. lia.
        -- rewrite mark_nth_other by auto. apply Hbelow. lia.
    + rewrite poleCount_app. simpl.
      rewrite mark_count; [rewrite mark_count by (auto; lia); lia | rewrite mark_length; lia |].
      rewrite mark_nth_other by lia. exact Hnj.
Qed.

Lemma pairConjugatePoles_count (poles : list Complex) :
  poleCount (pairConjugatePoles poles) = length poles.
Proof.
  unfold pairConjugatePoles.
  pose proof (fold_seq_inv (pairStep poles) (pairInv (length poles)) (length poles)
                0%nat (repeat false (length poles), [])) as H.
  simpl in H. destruct H as [Hlen [Hall Hcount]].
  - repeat split; simpl.
    + apply repeat_length.
    + intros k Hk; lia.
    + unfold countUsed. induction (length poles); simpl; auto.
  - intros i x Hi Hx. apply pairStep_inv; [lia | exact Hx].
  - rewrite Hcount, countUsed_all; auto.
    intros k Hk. apply Hall. lia.
Qed.

Lemma ltb_abs0 : ltb (Math.abs 0) 1e-10 = true.
Proof. apply ltb_true. unfold Math.abs. rewrite Rabs_R0. lra. Qed.

Lemma realified_idem (p : Complex) : realified (realified p) = realified p.
Proof.
  unfold realified. destruct (ltb (Math.abs (im p)) 1e-10) eqn:E; simpl.
  - now rewrite ltb_abs0.
  - now rewrite E.
Qed.

Lemma select_none (n : nat) (poles : list Complex) : select (repeat false n) poles = [].
Proof.
  revert poles; induction n; intros [|p ps]; simpl; auto.
Qed.

Lemma select_all (used : list bool) (poles : list Complex) :
  length used = length poles ->
  (forall k, (k < length used)%nat -> nth k used false = true) ->
  select used poles = poles.
Proof.
  revert poles; induction used as [|u used IH]; intros [|p ps] Hlen H;
    simpl in *; try lia; auto.
  assert (Hu : u = true) by (apply (H 0%nat); lia). subst u.
  f_equal. apply IH; [lia|]. intros k Hk. apply (H (S k)). lia.
Qed.

Lemma select_mark (i : nat) (used : list bool) (poles : list Complex) :
  length used = length poles -> (i < length used)%nat ->
  nth i used false = false ->
  Permutation (select (mark i used) poles) (nth i poles c0 :: select used poles).
Proof.
  revert i poles; induction used as [|u used IH]; intros [|i] [|p ps] Hlen Hi Hn;
    simpl in *; try lia.
  - subst u. apply Permutation_refl.
  - destruct u.
    + eapply perm_trans; [apply perm_skip, (IH i ps); auto; lia | apply perm_swap].
    + apply IH; auto; lia.
Qed.

Lemma allPoles_app (s1 s2 : list AnalogSOS) :
  allPoles (s1 ++ s2) = allPoles s1 ++ allPoles s2.
Proof. unfold allPoles. apply flat_map_app. Qed.

Lemma poleCount_allPoles (secs : list AnalogSOS) :
  poleCount secs = length (allPoles secs).
Proof.
  induction secs as [|[p|p q] secs IH]; simpl; auto; rewrite IH; reflexivity.
Qed.

Lemma pairStep_perm poles i st :
  (i < length poles)%nat ->
  pairInv (length poles) i st -> pairPerm poles st ->
  pairPerm poles (pairStep poles st i).
Proof.
  intros Hi [Hlen _] HP. destruct st as [used secs]. unfold pairPerm in *; simpl in *.
  unfold pairStep.
  destruct (nth i used false) eqn:Hu; [exact HP|].
  assert (Hone : forall p, realified p = realified (nth i poles c0) ->
            Permutation (map realified (allPoles (secs ++ [OnePole p])))
                        (map realified (select (mark i used) poles))).
  { intros p Hp. rewrite allPoles_app, map_app. simpl.
    eapply perm_trans; [apply Permutation_app_comm|]. simpl. rewrite Hp.
    eapply perm_trans; [apply perm_skip, HP|].
    apply Permutation_sym.
    change (realified (nth i poles c0) :: map realified (select used poles))
      with (map realified (nth i poles c0 :: select used poles)).
    apply Permutation_map, select_mark; auto; lia. }
  destruct (ltb (Math.abs (im (nth i poles c0))) 1e-10) eqn:Hreal.
  - simpl. apply Hone.
    unfold realified; simpl. rewrite Hreal, ltb_abs0. reflexivity.
  - destruct (findPartner poles used i) as [j|] eqn:Hf; simpl; [|apply Hone; auto].
    apply findPartner_some in Hf as [Hj Hp].
    unfold isPartner in Hp. apply andb_prop in Hp as [Hnj _].
    apply negb_true_iff in Hnj.
    rewrite allPoles_app, map_app. simpl.
    eapply perm_trans; [apply Permutation_app_comm|]. simpl.
    apply Permutation_sym.
    eapply perm_trans.
    { apply Permutation_map, select_mark.
      - now rewrite mark_length.
      - rewrite mark_length; lia.
      - rewrite mark_nth_other by lia. exact Hnj. }
    simpl. eapply perm_trans; [|apply perm_swap]. apply perm_skip.
    eapply perm_trans.
    { apply Permutation_map, select_mark; auto; lia. }
    simpl. apply perm_skip, Permutation_sym, HP.
Qed.

Lemma pairConjugatePoles_perm (poles : list Complex) :
  Permutation (map realified (allPoles (pairConjugatePoles poles)))
              (map realified poles).
Proof.
  unfold pairConjugatePoles.
  pose proof (fold_seq_inv (pairStep poles)
                (fun i st => pairInv (length poles) i st /\ pairPerm poles st)
                (length poles) 0%nat (repeat false (length poles), [])) as H.
  simpl in H. destruct H as [[Hlen [Hall _]] HP].
  - split; [repeat split|]; simpl.
    + apply repeat_length.
    + intros k Hk; lia.
    + unfold countUsed. induction (length poles); simpl; auto.
    + unfold pairPerm; simpl. rewrite select_none. constructor.
  - intros i x Hi [Hx HP]. split.
    + apply pairStep_inv; [lia | exact Hx].
    + apply pairStep_perm with (i := i); auto; lia.
  - unfold pairPerm in HP. rewrite select_all in HP; auto.
    intros k Hk. apply Hall. lia.
Qed.

(** ** The assignment of indices to sections *)

Lemma find_seq_first (f : nat -> bool) (len : nat) :
  forall s x,
    find f (seq s len) = Some x ->
    (s <= x < s + len)%nat /\ f x = true /\
    forall k, (s <= k < x)%nat -> f k = false.
Proof.
  induction len as [|len IH]; intros s x H; simpl in H; [discriminate|].
  destruct (f s) eqn:Hs.
  - injection H as <-. repeat split; auto; lia.
  - apply IH in H as [Hr [Hx Hb]]. repeat split; auto; try lia.
    intros k Hk. destruct (Nat.eq_dec k s); [subst; auto | apply Hb; lia].
Qed.

Lemma isPartner_false_taken poles used i k :
  isPartner poles used i k = false ->
  conjugateMatch (nth i poles c0) (nth k poles c0) ->
  nth k used false = true.
Proof.
  unfold isPartner, conjugateMatch. intros H [Hre Him].
  apply ltb_true in Hre, Him. rewrite Hre, Him in H. simpl in H.
  rewrite andb_true_r in H. now apply negb_false_iff in H.
Qed.

Lemma takenBefore_app asg extra a c :
  takenBefore asg a c -> takenBefore (asg ++ extra) a c.
Proof. intros [a' [Ha Hin]]. exists a'. split; auto. apply in_or_app; auto. Qed.

Lemma pairedByKind_snoc poles asg s :
  pairedByKind poles asg ->
  (forall a c, s = ITwo a c ->
     (a < c < length poles)%nat /\
     ~ nearReal (nth a poles c0) /\
     conjugateMatch (nth a poles c0) (nth c poles c0) /\
     forall k, (a < k < c)%nat ->
               conjugateMatch (nth a poles c0) (nth k poles c0) ->
               takenBefore asg a k) ->
  (forall a, s = IOne a ->
     nearReal (nth a poles c0) \/
     (~ nearReal (nth a poles c0) /\
      forall c, (a < c < length poles)%nat ->
                conjugateMatch (nth a poles c0) (nth c poles c0) ->
                takenBefore asg a c)) ->
  pairedByKind poles (asg ++ [s]).
Proof.
  intros [HP HO] HP1 HO1. split.
  - intros a c Hin. apply in_app_or in Hin as [Hin|[Hin|[]]].
    + destruct (HP a c Hin) as [H1 [H2 [H3 H4]]].
      split; [exact H1|]. split; [exact H2|]. split; [exact H3|].
      intros k Hk Hm. apply takenBefore_app. now apply H4.
    + destruct (HP1 a c Hin) as [H1 [H2 [H3 H4]]].
      split; [exact H1|]. split; [exact H2|]. split; [exact H3|].
      intros k Hk Hm. apply takenBefore_app. now apply H4.
  - intros a Hin. apply in_app_or in Hin as [Hin|[Hin|[]]].
    + destruct (HO a Hin) as [Hr|[Hn Hu]]; [now left|]. right. split; auto.
      intros c Hc Hm. apply takenBefore_app. now apply Hu.
    + destruct (HO1 a Hin) as [Hr|[Hn Hu]]; [now left|]. right. split; auto.
      intros c Hc Hm. apply takenBefore_app. now apply Hu.
Qed.

(** A marked index after the loop counter is the partner of an earlier pair. *)
Lemma marked_ahead_taken (poles : list Complex) (used : list bool) asg i c :
  (forall k, In k (flat_map indices asg) <->
             (k < length poles)%nat /\ nth k used false = true) ->
  (forall s, In s asg -> (firstIndex s < i)%nat) ->
  (i < c < length poles)%nat -> nth c used false = true ->
  takenBefore asg i c.
Proof.
  intros Hiff Hfirst Hc Hused.
  assert (Hin : In c (flat_map indices asg)) by (apply Hiff; split; [lia | exact Hused]).
  apply in_flat_map in Hin as [s [Hs Hc']].
  pose proof (Hfirst s Hs) as Hf.
  destruct s as [a|a c']; simpl in *.
  - destruct Hc' as [->|[]]. lia.
  - destruct Hc' as [->|[->|[]]]; [lia|]. exists a. split; auto.
Qed.

Lemma pairStep_assign poles i st :
  (i < length poles)%nat ->
  pairInv (length poles) i st ->
  assignInv poles i st -> assignInv poles (S i) (pairStep poles st i).
Proof.
  intros Hi [Hlen _] [asg [Hsecs [Hnd [Hiff [Hfirst Hkind]]]]].
  destruct st as [used secs]; simpl in *. unfold pairStep.
  destruct (nth i used false) eqn:Hu.
  - exists asg. simpl.
    split; [exact Hsecs|]. split; [exact Hnd|]. split; [exact Hiff|].
    split; [|exact Hkind].
    intros s Hs. specialize (Hfirst s Hs). lia.
  - assert (Hfresh : ~ In i (flat_map indices asg)).
    { intros Hin. apply Hiff in Hin as [_ Hin]. congruence. }
    assert (Hone : forall p,
               p = realified (nth i poles c0) ->
               pairedByKind poles (asg ++ [IOne i]) ->
               assignInv poles (S i) (mark i used, secs ++ [OnePole p])).
    { intros p -> Hk. exists (asg ++ [IOne i]). simpl.
      split; [now rewrite map_app, Hsecs|].
      split; [rewrite flat_map_app; simpl; apply NoDup_app; auto;
              [repeat constructor; simpl; tauto
              |intros a Ha [<-|[]]; auto]|].
      split; [|split; [|exact Hk]].
      - intros k. rewrite flat_map_app, in_app_iff. simpl.
        destruct (Nat.eq_dec k i) as [->|Hne].
        + rewrite mark_nth_same by lia. split; auto.
        + rewrite mark_nth_other by exact Hne. rewrite Hiff.
          split; [intros [H|[H|[]]]; [exact H | congruence] | auto].
      - intros s Hs. apply in_app_or in Hs as [Hs|[<-|[]]]; simpl; [|lia].
        specialize (Hfirst s Hs). lia. }
    destruct (ltb (Math.abs (im (nth i poles c0))) 1e-10) eqn:Hreal.
    + apply Hone.
      * unfold realified. now rewrite Hreal.
      * apply pairedByKind_snoc; auto.
        -- intros a c H; discriminate H.
        -- intros a H. injection H as <-. left. now apply ltb_true.
    + destruct (findPartner poles used i) as [j|] eqn:Hf.
      * unfold findPartner in Hf. apply find_seq_first in Hf as [Hj [Hp Hbefore]].
        assert (Hp' := Hp). unfold isPartner in Hp'.
        apply andb_prop in Hp' as [Hnj Hm]. apply negb_true_iff in Hnj.
        apply andb_prop in Hm as [Hre Him]. apply ltb_true in Hre, Him.
        apply ltb_false in Hreal.
        exists (asg ++ [ITwo i j]). simpl.
        split; [now rewrite map_app, Hsecs|].
        assert (Hfreshj : ~ In j (flat_map indices asg)).
        { intros Hin. apply Hiff in Hin as [_ Hin]. congruence. }
        split; [rewrite flat_map_app; simpl; apply NoDup_app; auto;
                [repeat constructor; simpl; intuition lia
                |intros a Ha [<-|[<-|[]]]; auto]|].
        split; [|split].
        -- intros k. rewrite flat_map_app, in_app_iff. simpl.
           destruct (Nat.eq_dec k j) as [->|Hnej].
           ++ rewrite mark_nth_same by (rewrite mark_length; lia). split; auto; lia.
           ++ rewrite mark_nth_other by exact Hnej.
              destruct (Nat.eq_dec k i) as [->|Hnei].
              ** rewrite mark_nth_same by lia. split; auto.
              ** rewrite mark_nth_other by exact Hnei. rewrite Hiff.
                 split; [intros [H|[H|[H|[]]]]; [exact H | congruence | congruence] | auto].
        -- intros s Hs. apply in_app_or in Hs as [Hs|[<-|[]]]; simpl; [|lia].
           specialize (Hfirst s Hs). lia.
        -- apply pairedByKind_snoc; auto.
           ++ intros a c H. injection H as <- <-.
              split; [lia|]. split; [exact Hreal|]. split; [split; assumption|].
              intros k Hk Hmk.
              assert (Hfk : isPartner poles used i k = false) by (apply Hbefore; lia).
              apply (marked_ahead_taken poles used asg i k Hiff Hfirst); [lia|].
              exact (isPartner_false_taken poles used i k Hfk Hmk).
           ++ intros a H; discriminate H.
      * apply Hone.
        -- unfold realified. now rewrite Hreal.
        -- apply ltb_false in Hreal. apply pairedByKind_snoc; auto.
           ++ intros a c H; discriminate H.
           ++ intros a H. injection H as <-. right. split; [exact Hreal|].
              intros c Hc Hm.
              assert (Hfc : isPartner poles used i c = false).
              { unfold findPartner in Hf. apply (find_none _ _ Hf). apply in_seq. lia. }
              apply (marked_ahead_taken poles used asg i c Hiff Hfirst); [lia|].
              exact (isPartner_false_taken poles used i c Hfc Hm).
Qed.

Lemma pairConjugatePoles_assignment (poles : list Complex) :
  exists assignment,
    pairConjugatePoles poles = map (materialise poles) assignment /\
    Permutation (flat_map indices assignment) (seq 0 (length poles)) /\
    pairedByKind poles assignment.
Proof.
  unfold pairConjugatePoles.
  pose proof (fold_seq_inv (pairStep poles)
                (fun i st => pairInv (length poles) i st /\ assignInv poles i st)
                (length poles) 0%nat (repeat false (length poles), [])) as H.
  simpl in H. destruct H as [[Hlen [Hall _]] [asg [Hsecs [Hnd [Hiff [_ Hkind]]]]]].
  - split; [repeat split|]; simpl.
    + apply repeat_length.
    + intros k Hk; lia.
    + unfold countUsed. induction (length poles); simpl; auto.
    + exists []. simpl. split; [reflexivity|]. split; [constructor|].
      split; [intros k; split; [intros [] | intros [Hk Hn]]|].
      * rewrite nth_repeat in Hn. discriminate Hn.
      * split; [intros s []|]. split; [intros a c [] | intros a []].
  - intros i x Hi [Hx Ha]. split.
    + apply pairStep_inv; [lia | exact Hx].
    + apply pairStep_assign; auto; lia.
  - exists asg. split; [exact Hsecs|]. split; [|exact Hkind].
    apply NoDup_Permutation; [exact Hnd | apply seq_NoDup|].
    intros k. rewrite Hiff, in_seq. split.
    + intros [Hk _]. lia.
    + intros Hk. split; [lia|]. apply Hall. lia.
Qed.

(** The conditions of [pairedByKind] leave no choice on a conjugate pair: an
    assignment that meets them puts the two poles into one two-pole section,
    so a pairing that kept them apart would not meet them. *)
Lemma pairedByKind_forces_pair (p q : Complex) (assignment : list IndexSection) :
  ~ nearReal p -> conjugateMatch p q ->
  Permutation (flat_map indices assignment) (seq 0 2) ->
  pairedByKind [p; q] assignment ->
  In (ITwo 0 1) assignment.
Proof.
  intros Hp Hm Hperm [HP HO].
  assert (H0 : In 0%nat (flat_map indices assignment)).
  { eapply Permutation_in; [apply Permutation_sym, Hperm | simpl; auto]. }
  apply in_flat_map in H0 as [s [Hs H0]].
  destruct s as [a|a c]; simpl in H0.
  - destruct H0 as [->|[]].
    destruct (HO 0%nat Hs) as [Hr|[_ Hu]]; [contradiction|].
    destruct (Hu 1%nat) as [a' [Ha' _]]; [simpl; lia | exact Hm | lia].
  - destruct (HP a c Hs) as [Hac _]. simpl in Hac.
    destruct H0 as [->|[->|[]]]; [|lia].
    now replace c with 1%nat in Hs by lia.
Qed.

(** C10: [pairConjugatePoles] assigns every input pole to exactly one
    section, by kind of pole.  There is an assignment of the indices
    [0 .. length - 1] to sections that uses each index exactly once and whose
    sections are the returned ones; in it a two-pole section holds a pole not
    read as real and the first later pole read as its conjugate that was
    still free, and a one-pole section holds a pole read as real (stored with
    imaginary part 0) or an unmatched pole, one whose later conjugates were
    all taken already (stored as it is).  So the sections together hold as
    many poles as the input list, and their poles are the input poles, each
    once. *)
Theorem pairConjugatePoles_partition (poles : list Complex) :
  poleCount (pairConjugatePoles poles) = length poles /\
  Permutation (map realified (allPoles (pairConjugatePoles poles)))
              (map realified poles) /\
  exists assignment,
    pairConjugatePoles poles = map (materialise poles) assignment /\
    Permutation (flat_map indices assignment) (seq 0 (length poles)) /\
    pairedByKind poles assignment.
Proof.
  split; [apply pairConjugatePoles_count|].
  split; [apply pairConjugatePoles_perm|].
  apply pairConjugatePoles_assignment.
Qed.

(** ** The analog prototypes *)

Lemma in_range (n k : Z) : In k (range n) <-> (0 <= k < n)%Z.
Proof.
  unfold range. rewrite in_map_iff. split.
  - intros [i [<- Hi]]. apply in_seq in Hi. lia.
  - intros Hk. exists (Z.to_nat k). split; [lia|]. apply in_seq. lia.
Qed.

Lemma range_length (n : Z) : length (range n) = Z.to_nat n.
Proof. unfold range. now rewrite length_map, length_seq. Qed.

Lemma butterworthPoles_length (order : Z) :
  length (butterworthPoles order) = Z.to_nat order.
Proof. unfold butterworthPoles. now rewrite length_map, range_length. Qed.

Lemma chebyshevPoles_length (order : Z) (rippleDb : R) :
  length (cheb_poles (chebyshevPoles order rippleDb)) = Z.to_nat order.
Proof. unfold chebyshevPoles; simpl. now rewrite length_map, range_length. Qed.

(** The Butterworth angle lies strictly between a quarter and three quarters
    of a turn, where the cosine is negative. *)
Lemma butterworthPoles_left (order : Z) :
  Forall (fun p => re p < 0) (butterworthPoles order).
Proof.
  unfold butterworthPoles. apply Forall_map, Forall_forall.
  intros k Hk. apply in_range in Hk. simpl.
  assert (HK : 0 <= IZR k) by (apply IZR_le; lia).
  assert (HN : IZR k + 1 <= IZR order).
  { rewrite <- plus_IZR. apply IZR_le. lia. }
  pose proof PI_RGT_0 as Hpi.
  set (K := IZR k) in *. set (N := IZR order) in *.
  assert (Hq : 0 < PI * (2 * K + 1) / (2 * N)).
  { apply Rdiv_lt_0_compat; nra. }
  assert (Hr : 0 < PI * (2 * N - 2 * K - 1) / (2 * N)).
  { apply Rdiv_lt_0_compat; nra. }
  apply cos_lt_0.
  - replace (PI * (2 * K + N + 1) / (2 * N))
      with (PI / 2 + PI * (2 * K + 1) / (2 * N)) by (field; lra).
    lra.
  - replace (PI * (2 * K + N + 1) / (2 * N))
      with (3 * (PI / 2) - PI * (2 * N - 2 * K - 1) / (2 * N)) by (field; lra).
    lra.
Qed.

Lemma chebyshev_eps_pos (rippleDb : R) :
  0 < rippleDb -> 0 < sqrt (Math.pow 10 (rippleDb / 10) - 1).
Proof.
  intros Hr. apply sqrt_lt_R0. unfold Math.pow.
  assert (H : Rpower 10 0 < Rpower 10 (rippleDb / 10)) by (apply Rpower_lt; lra).
  rewrite Rpower_O in H by lra. lra.
Qed.

Lemma chebyshevPoles_left (order : Z) (rippleDb : R) :
  0 < rippleDb ->
  Forall (fun p => re p < 0) (cheb_poles (chebyshevPoles order rippleDb)).
Proof.
  intros Hr. unfold chebyshevPoles; simpl. apply Forall_map, Forall_forall.
  intros k Hk. apply in_range in Hk. simpl.
  pose proof (chebyshev_eps_pos rippleDb Hr) as Heps.
  set (eps := sqrt (Math.pow 10 (rippleDb / 10) - 1)) in *.
  assert (HK : 0 <= IZR k) by (apply IZR_le; lia).
  assert (HN : IZR k + 1 <= IZR order).
  { rewrite <- plus_IZR. apply IZR_le. lia. }
  pose proof PI_RGT_0 as Hpi.
  set (K := IZR k) in *. set (N := IZR order) in *.
  assert (Hasinh : 0 < Math.asinh (1 / eps)).
  { unfold Math.asinh. rewrite <- arcsinh_0. apply arcsinh_lt.
    apply Rdiv_lt_0_compat; lra. }
  assert (Hmu : 0 < 1 / N * Math.asinh (1 / eps)).
  { apply Rmult_lt_0_compat; [apply Rdiv_lt_0_compat; lra | exact Hasinh]. }
  assert (Hsinh : 0 < sinh (1 / N * Math.asinh (1 / eps))).
  { rewrite <- sinh_0. apply sinh_lt, Hmu. }
  assert (Hsin : 0 < sin (PI * (2 * K + 1) / (2 * N))).
  { assert (Hq : 0 < PI * (2 * K + 1) / (2 * N)) by (apply Rdiv_lt_0_compat; nra).
    assert (Hs : 0 < PI * (2 * N - 2 * K - 1) / (2 * N)) by (apply Rdiv_lt_0_compat; nra).
    apply sin_gt_0; [exact Hq|].
    replace (PI * (2 * K + 1) / (2 * N))
      with (PI - PI * (2 * N - 2 * K - 1) / (2 * N)) by (field; lra).
    lra. }
  nra.
Qed.

Lemma DATA_2 : DATA 2 = Some DATA2.
Proof. reflexivity. Qed.

Lemma DATA_missing (order : Z) :
  (order < 1 \/ 8 < order)%Z -> DATA order = None.
Proof.
  intros H. destruct order as [|p|p]; try reflexivity.
  destruct p as [[[[p|p|]|[p|p|]|]|[[p|p|]|[p|p|]|]|]|[[[p|p|]|[p|p|]|]|[[p|p|]|[p|p|]|]|]|];
    try reflexivity; lia.
Qed.

Lemma DATA_present (order : Z) :
  (1 <= order <= 8)%Z -> exists entry, DATA order = Some entry /\
    length (entry_poles entry) = Z.to_nat order /\
    0 < omega3dB entry /\
    Forall (fun p => re p < 0) (entry_poles entry).
Proof.
  intros H.
  assert (Hc : (order = 1 \/ order = 2 \/ order = 3 \/ order = 4 \/
                order = 5 \/ order = 6 \/ order = 7 \/ order = 8)%Z) by lia.
  repeat (destruct Hc as [Hc|Hc]); subst order;
    (eexists; split; [reflexivity|]; simpl;
     split; [reflexivity|]; split; [lra|]; repeat constructor; simpl; lra).
Qed.

Lemma besselPoles_fallback (order : Z) :
  (order < 1 \/ 8 < order)%Z -> besselPoles order = entry_poles DATA2.
Proof. intros H. unfold besselPoles. rewrite DATA_missing by exact H. reflexivity. Qed.

Lemma besselPoles_tabulated_length (order : Z) :
  (1 <= order <= 8)%Z -> length (besselPoles order) = Z.to_nat order.
Proof.
  intros H. destruct (DATA_present order H) as [e [He [Hl _]]].
  unfold besselPoles. rewrite He. now rewrite length_map.
Qed.

Lemma besselPoles_left (order : Z) :
  Forall (fun p => re p < 0) (besselPoles order).
Proof.
  destruct (Z_lt_le_dec order 1) as [Hlo|Hlo];
    [|destruct (Z_lt_le_dec 8 order) as [Hhi|Hhi]].
  - rewrite besselPoles_fallback by lia. simpl. repeat constructor; simpl; lra.
  - rewrite besselPoles_fallback by lia. simpl. repeat constructor; simpl; lra.
  - destruct (DATA_present order (conj Hlo Hhi)) as [e [He [_ [Hs Hf]]]].
    unfold besselPoles. rewrite He. apply Forall_map.
    eapply Forall_impl; [|exact Hf]. simpl. intros p Hp.
    apply Ropp_lt_cancel. rewrite Ropp_0.
    replace (- (re p / omega3dB e)) with ((- re p) / omega3dB e) by (field; lra).
    apply Rdiv_lt_0_compat; lra.
Qed.

Lemma getAnalogPoles_left (params : FilterParams) :
  rippleOk params -> Forall (fun p => re p < 0) (getAnalogPoles params).
Proof.
  unfold rippleOk, getAnalogPoles. intros H.
  destruct (family params).
  - apply butterworthPoles_left.
  - apply chebyshevPoles_left; auto.
  - apply besselPoles_left.
Qed.

(** ** The bilinear transform *)

(** What [bilinear] computes, with [a] and [c] the real and imaginary part of
    [s * T / 2]: the quotient [(1 + a + c i) / (1 - a - c i)]. *)
Lemma bilinear_parts (s : Complex) (sampleRate : R) :
  0 < sampleRate -> re s < 0 ->
  let a := re s * (1 / sampleRate / 2) in
  let c := im s * (1 / sampleRate / 2) in
  let D := (1 - a) * (1 - a) + c * c in
  0 < D /\ a < 0 /\
  re (bilinear s sampleRate) = (1 - a * a - c * c) / D /\
  im (bilinear s sampleRate) = 2 * c / D.
Proof.
  intros Hfs Hre a c D.
  assert (Hh : 0 < 1 / sampleRate / 2).
  { apply Rdiv_lt_0_compat; [apply Rdiv_lt_0_compat|]; lra. }
  assert (Ha : a < 0) by (unfold a; nra).
  assert (HD : 0 < D) by (unfold D; nra).
  repeat split; auto.
  - unfold bilinear; simpl. fold a. fold c.
    replace (- im s * (1 / sampleRate / 2)) with (- c) by (unfold c; ring).
    replace ((1 - a) * (1 - a) + - c * - c) with D by (unfold D; ring).
    field; lra.
  - unfold bilinear; simpl. fold a. fold c.
    replace (- im s * (1 / sampleRate / 2)) with (- c) by (unfold c; ring).
    replace ((1 - a) * (1 - a) + - c * - c) with D by (unfold D; ring).
    field; lra.
Qed.

(** A pole of the open left half-plane lands strictly inside the unit circle. *)
Lemma bilinear_inside (s : Complex) (sampleRate : R) :
  0 < sampleRate -> re s < 0 ->
  re (bilinear s sampleRate) * re (bilinear s sampleRate)
  + im (bilinear s sampleRate) * im (bilinear s sampleRate) < 1.
Proof.
  intros Hfs Hre.
  destruct (bilinear_parts s sampleRate Hfs Hre) as [HD [Ha [-> ->]]].
  set (a := re s * (1 / sampleRate / 2)) in *.
  set (c := im s * (1 / sampleRate / 2)) in *.
  set (D := (1 - a) * (1 - a) + c * c) in *.
  replace ((1 - a * a - c * c) / D * ((1 - a * a - c * c) / D) + 2 * c / D * (2 * c / D))
    with (((1 + a) * (1 + a) + c * c) / D) by (unfold D; field; fold D; lra).
  apply Rmult_lt_reg_r with D; [exact HD|].
  unfold Rdiv. rewrite Rmult_assoc, Rinv_l by lra. unfold D. lra.
Qed.

Lemma Cabs_lt_1 (z : Complex) :
  re z * re z + im z * im z < 1 -> Cabs z < 1.
Proof.
  intros H. unfold Cabs. rewrite <- sqrt_1.
  apply sqrt_lt_1_alt. split; [nra | exact H].
Qed.

Lemma bilinear_stable (s : Complex) (sampleRate : R) :
  0 < sampleRate -> re s < 0 -> Cabs (bilinear s sampleRate) < 1.
Proof. intros Hfs Hre. now apply Cabs_lt_1, bilinear_inside. Qed.

(** The imaginary parts of the images of two poles multiply to the sign of
    the product of the imaginary parts of the poles. *)
Lemma bilinear_im_product (s1 s2 : Complex) (sampleRate : R) :
  0 < sampleRate -> re s1 < 0 -> re s2 < 0 -> im s1 * im s2 < 0 ->
  im (bilinear s1 sampleRate) * im (bilinear s2 sampleRate) < 0.
Proof.
  intros Hfs H1 H2 Him.
  destruct (bilinear_parts s1 sampleRate Hfs H1) as [HD1 [_ [_ ->]]].
  destruct (bilinear_parts s2 sampleRate Hfs H2) as [HD2 [_ [_ ->]]].
  assert (Hh : 0 < 1 / sampleRate / 2).
  { apply Rdiv_lt_0_compat; [apply Rdiv_lt_0_compat|]; lra. }
  set (h := 1 / sampleRate / 2) in *.
  set (D1 := (1 - re s1 * h) * (1 - re s1 * h) + im s1 * h * (im s1 * h)) in *.
  set (D2 := (1 - re s2 * h) * (1 - re s2 * h) + im s2 * h * (im s2 * h)) in *.
  replace (2 * (im s1 * h) / D1 * (2 * (im s2 * h) / D2))
    with (- ((4 * h * h * (- (im s1 * im s2))) / (D1 * D2))) by (field; lra).
  apply Ropp_lt_gt_0_contravar.
  apply Rdiv_lt_0_compat; [|nra].
  assert (0 < h * h) by nra. nra.
Qed.

(** The prewarped analog cutoff is positive below Nyquist. *)
Lemma omegaA_pos (params : FilterParams) (sampleRate : R) :
  0 < cutoffFrequency params < sampleRate / 2 ->
  0 < omegaA params sampleRate.
Proof.
  intros [Hlo Hhi]. unfold omegaA.
  assert (Hfs : 0 < sampleRate) by lra.
  pose proof PI_RGT_0 as Hpi.
  set (fc := cutoffFrequency params) in *.
  assert (Hx : 0 < PI * (fc / sampleRate)).
  { apply Rmult_lt_0_compat; [lra | apply Rdiv_lt_0_compat; lra]. }
  assert (Hy : fc / sampleRate < / 2).
  { apply Rmult_lt_reg_r with sampleRate; [lra|].
    unfold Rdiv. rewrite Rmult_assoc, Rinv_l by lra. lra. }
  replace (2 * PI * fc / sampleRate / 2) with (PI * (fc / sampleRate)) by (field; lra).
  assert (Ht : 0 < tan (PI * (fc / sampleRate))).
  { apply tan_gt_0; [exact Hx | nra]. }
  nra.
Qed.

Arguments bilinear : simpl never.
Arguments omegaA : simpl never.

(** ** What the pairing guarantees about each section *)

Lemma opposite_signs (u v : R) :
  ~ Math.abs u < 1e-10 -> Math.abs (u + v) < 1e-10 -> u * v < 0.
Proof.
  unfold Math.abs. intros Hu Huv.
  apply Rabs_def2 in Huv as [H1 H2].
  assert (Hu' : 1e-10 <= Rabs u) by lra.
  unfold Rabs in Hu'. destruct (Rcase_abs u); nra.
Qed.

Lemma pairStep_good poles i st :
  (i < length poles)%nat ->
  Forall (goodSection poles) (snd st) ->
  Forall (goodSection poles) (snd (pairStep poles st i)).
Proof.
  intros Hi HF. destruct st as [used secs]; simpl in *. unfold pairStep.
  assert (Hin : In (nth i poles c0) poles) by (apply nth_In; exact Hi).
  destruct (nth i used false); [exact HF|].
  destruct (ltb (Math.abs (im (nth i poles c0))) 1e-10) eqn:Hreal; simpl.
  - apply Forall_app; split; [exact HF|]. repeat constructor.
    exists (nth i poles c0). split; auto.
  - destruct (findPartner poles used i) as [j|] eqn:Hf; simpl.
    + apply findPartner_some in Hf as [Hj Hp].
      unfold isPartner in Hp.
      apply andb_prop in Hp as [_ Hp]. apply andb_prop in Hp as [_ Hsum].
      apply ltb_true in Hsum. apply ltb_false in Hreal.
      apply Forall_app; split; [exact HF|]. repeat constructor; auto.
      * apply nth_In. lia.
      * now apply opposite_signs.
    + apply Forall_app; split; [exact HF|]. repeat constructor.
      exists (nth i poles c0). split; auto.
Qed.

Lemma pairConjugatePoles_good (poles : list Complex) :
  Forall (goodSection poles) (pairConjugatePoles poles).
Proof.
  unfold pairConjugatePoles.
  pose proof (fold_seq_inv (pairStep poles)
                (fun _ st => Forall (goodSection poles) (snd st))
                (length poles) 0%nat (repeat false (length poles), [])) as H.
  apply H.
  - constructor.
  - intros i x Hi Hx. apply pairStep_good; [lia | exact Hx].
Qed.

Lemma pairConjugatePoles_left (poles : list Complex) :
  Forall (fun p => re p < 0) poles ->
  Forall leftSection (pairConjugatePoles poles).
Proof.
  intros HL. rewrite Forall_forall in HL.
  eapply Forall_impl; [|apply pairConjugatePoles_good].
  intros [p|p q]; simpl.
  - intros [q [Hq ->]]. now apply HL.
  - intros [Hp [Hq Him]]. repeat split; auto.
Qed.

(** ** [buildSOS] *)

Lemma buildSOS_inv (P : SOSBuild -> Prop) params sampleRate (secs : list AnalogSOS) :
  forall acc,
    P acc ->
    (forall x s, In s secs -> P x -> P (buildSection params sampleRate x s)) ->
    P (fold_left (buildSection params sampleRate) secs acc).
Proof.
  induction secs as [|s secs IH]; intros acc H0 Hstep; simpl; auto.
  apply IH.
  - apply Hstep; [now left | exact H0].
  - intros x s' Hs'. apply Hstep. now right.
Qed.

Lemma buildSOS_lengths params sampleRate (secs : list AnalogSOS) :
  forall acc,
    let r := fold_left (buildSection params sampleRate) secs acc in
    length (zPoles r) = (length (zPoles acc) + poleCount secs)%nat /\
    length (zZeros r) = (length (zZeros acc) + poleCount secs)%nat /\
    length (b_sos r) = (length (b_sos acc) + length secs)%nat.
Proof.
  induction secs as [|s secs IH]; intros acc; simpl.
  - repeat split; lia.
  - destruct (IH (buildSection params sampleRate acc s)) as [H1 [H2 H3]].
    rewrite H1, H2, H3.
    destruct s; simpl; rewrite !length_app; simpl; repeat split; lia.
Qed.

Lemma buildSOS_zeros params sampleRate (analogPoles : list Complex) :
  Forall (fun z => z = mkC (zeroZ params) 0)
         (zZeros (buildSOS params sampleRate analogPoles)).
Proof.
  unfold buildSOS. apply buildSOS_inv; [constructor|].
  intros x [p|p q] _ Hx; simpl; apply Forall_app; split; auto; repeat constructor.
Qed.

Lemma buildSOS_stable params sampleRate (analogPoles : list Complex) :
  0 < sampleRate -> 0 < omegaA params sampleRate ->
  Forall (fun p => re p < 0) analogPoles ->
  Forall (fun z => Cabs z < 1) (zPoles (buildSOS params sampleRate analogPoles)).
Proof.
  intros Hfs Hw HL. apply pairConjugatePoles_left in HL.
  rewrite Forall_forall in HL.
  unfold buildSOS. apply buildSOS_inv; [constructor|].
  intros x [p|p q] Hs Hx; specialize (HL _ Hs); simpl in HL; simpl;
    apply Forall_app; split; auto; repeat constructor;
    apply bilinear_stable; simpl; auto; nra.
Qed.

(** ** Gain normalization *)

Lemma Rinv_m1 : / -1 = -1.
Proof. field. Qed.

(** The reference point and the zero of a response are opposite units. *)
Lemma evalAt_zeroZ (params : FilterParams) :
  (evalAt params = 1 /\ zeroZ params = -1) \/ (evalAt params = -1 /\ zeroZ params = 1).
Proof. unfold evalAt, zeroZ. destruct (type params); auto. Qed.

(** A first-order section with its pole strictly between -1 and 1. *)
Lemma first_order_gain (e z0 x : R) :
  (e = 1 /\ z0 = -1) \/ (e = -1 /\ z0 = 1) ->
  x * x < 1 ->
  let a1 := - x in
  let b1Raw := - z0 in
  let g := (1 + a1 * e) / (1 + b1Raw * e) in
  evalSection (mkSOS (g, g * b1Raw, 0) (1, a1, 0)) e = 1.
Proof.
  intros He Hx. assert (-1 < x < 1) by nra.
  unfold evalSection; simpl.
  destruct He as [[-> ->]|[-> ->]]; rewrite ?Rinv_1, ?Rinv_m1; field; lra.
Qed.

(** A second-order section with both poles strictly inside the unit circle
    and imaginary parts of opposite signs. *)
Lemma second_order_gain (e z0 u1 v1 u2 v2 : R) :
  (e = 1 /\ z0 = -1) \/ (e = -1 /\ z0 = 1) ->
  u1 * u1 + v1 * v1 < 1 -> u2 * u2 + v2 * v2 < 1 -> v1 * v2 < 0 ->
  let a1 := - (u1 + u2) in
  let a2 := u1 * u2 - v1 * v2 in
  let b1Raw := -2 * z0 in
  let b2Raw := z0 * z0 in
  let g := (1 + a1 * e + a2 * e * e) / (1 + b1Raw * e + b2Raw * e * e) in
  evalSection (mkSOS (g, g * b1Raw, g * b2Raw) (1, a1, a2)) e = 1.
Proof.
  intros He H1 H2 Hv.
  assert (Hu1 : -1 < u1 < 1) by nra.
  assert (Hu2 : -1 < u2 < 1) by nra.
  assert (Hlo : 0 < (1 - u1) * (1 - u2) - v1 * v2) by nra.
  assert (Hhi : 0 < (1 + u1) * (1 + u2) - v1 * v2) by nra.
  unfold evalSection; simpl.
  destruct He as [[-> ->]|[-> ->]]; rewrite ?Rinv_1, ?Rinv_m1; field; lra.
Qed.

Lemma buildSOS_unity params sampleRate (analogPoles : list Complex) :
  0 < sampleRate -> 0 < omegaA params sampleRate ->
  Forall (fun p => re p < 0) analogPoles ->
  Forall (fun s => evalSection s (evalAt params) = 1)
         (b_sos (buildSOS params sampleRate analogPoles)).
Proof.
  intros Hfs Hw HL. apply pairConjugatePoles_left in HL.
  rewrite Forall_forall in HL.
  unfold buildSOS. apply buildSOS_inv; [constructor|].
  intros x [p|p q] Hs Hx; specialize (HL _ Hs); simpl in HL; simpl;
    apply Forall_app; split; auto; repeat constructor.
  - set (zp := bilinear (mkC (omegaA params sampleRate * re p) 0) sampleRate).
    assert (Hb : re zp * re zp + im zp * im zp < 1).
    { apply bilinear_inside; simpl; auto; nra. }
    apply (first_order_gain _ _ (re zp)); [apply evalAt_zeroZ | nra].
  - destruct HL as [Hp [Hq Him]].
    set (zp1 := bilinear (mkC (omegaA params sampleRate * re p)
                              (omegaA params sampleRate * im p)) sampleRate).
    set (zp2 := bilinear (mkC (omegaA params sampleRate * re q)
                              (omegaA params sampleRate * im q)) sampleRate).
    apply (second_order_gain _ _ (re zp1) (im zp1) (re zp2) (im zp2));
      [apply evalAt_zeroZ | | |].
    + apply bilinear_inside; simpl; auto; nra.
    + apply bilinear_inside; simpl; auto; nra.
    + apply bilinear_im_product; simpl; auto; try nra.
      assert (0 < omegaA params sampleRate * omegaA params sampleRate) by nra.
      nra.
Qed.

(** ** [designFilter] *)

Lemma designFilter_poles params sampleRate n :
  poles (designFilter params sampleRate n)
  = zPoles (buildSOS params sampleRate (getAnalogPoles params)).
Proof. reflexivity. Qed.

Lemma designFilter_zeros params sampleRate n :
  zeros (designFilter params sampleRate n)
  = zZeros (buildSOS params sampleRate (getAnalogPoles params)).
Proof. reflexivity. Qed.

Lemma designFilter_sos params sampleRate n :
  sos (designFilter params sampleRate n)
  = b_sos (buildSOS params sampleRate (getAnalogPoles params)).
Proof. reflexivity. Qed.

Lemma designFilter_frequencies params sampleRate n :
  frequencies (designFilter params sampleRate n)
  = map (gridFrequency sampleRate n) (seq 0 n).
Proof. reflexivity. Qed.

Lemma designFilter_counts params sampleRate n :
  length (poles (designFilter params sampleRate n)) = length (getAnalogPoles params) /\
  length (zeros (designFilter params sampleRate n)) = length (getAnalogPoles params).
Proof.
  rewrite designFilter_poles, designFilter_zeros. unfold buildSOS.
  destruct (buildSOS_lengths params sampleRate
              (pairConjugatePoles (getAnalogPoles params)) (mkBuild [] [] []))
    as [H1 [H2 _]].
  rewrite H1, H2. simpl. now rewrite pairConjugatePoles_count.
Qed.

Lemma getAnalogPoles_length (params : FilterParams) :
  (family params = bessel -> (1 <= order params <= 8)%Z) ->
  length (getAnalogPoles params) = Z.to_nat (order params).
Proof.
  unfold getAnalogPoles. intros H. destruct (family params).
  - apply butterworthPoles_length.
  - apply chebyshevPoles_length.
  - apply besselPoles_tabulated_length. auto.
Qed.

Lemma gridFrequency_nth sampleRate (n i : nat) :
  (i < n)%nat ->
  nth i (map (gridFrequency sampleRate n) (seq 0 n)) 0
  = gridFrequency sampleRate n i.
Proof.
  intros Hi.
  rewrite nth_indep with (d' := gridFrequency sampleRate n 0)
    by (now rewrite length_map, length_seq).
  rewrite map_nth, seq_nth by exact Hi. reflexivity.
Qed.

(** ** Concrete runs of the design engine *)

(** A conjugate pair separated by a real pole: the pair is found across the
    real pole and pushed first. *)
Example pairConjugatePoles_pair_and_real :
  pairConjugatePoles [mkC (-1) 1; mkC (-2) 0; mkC (-1) (-1)]
  = [TwoPoles (mkC (-1) 1) (mkC (-1) (-1)); OnePole (mkC (-2) 0)].
Proof.
  unfold pairConjugatePoles. simpl. unfold pairStep, findPartner, isPartner. simpl.
  ltb_decide. simpl. ltb_decide. simpl. ltb_decide. reflexivity.
Qed.

(** Two complex poles that are not conjugates: each becomes a one-pole
    section and keeps its imaginary part. *)
Example pairConjugatePoles_unmatched :
  pairConjugatePoles [mkC (-1) 1; mkC (-1) 1]
  = [OnePole (mkC (-1) 1); OnePole (mkC (-1) 1)].
Proof.
  unfold pairConjugatePoles. simpl. unfold pairStep, findPartner, isPartner. simpl.
  ltb_decide. simpl. ltb_decide. simpl. ltb_decide. reflexivity.
Qed.

Lemma butterworthPoles_1 : butterworthPoles 1 = [mkC (-1) 0].
Proof.
  unfold butterworthPoles, range. simpl.
  replace (PI * (2 * 0 + 1 + 1) / (2 * 1)) with PI by field.
  now rewrite cos_PI, sin_PI.
Qed.

Lemma omegaA_half_nyquist : omegaA spec_butter1 44100 = 88200.
Proof.
  unfold omegaA. simpl.
  replace (2 * PI * 11025 / 44100 / 2) with (PI / 4) by field.
  rewrite tan_PI4. ring.
Qed.

(** The whole pipeline on the first-order Butterworth lowpass at half of
    Nyquist: the pole lands at the origin and the section is the two-point
    average. *)
Example designFilter_first_order :
  let r := designFilter spec_butter1 44100 4 in
  poles r = [mkC 0 0] /\ zeros r = [mkC (-1) 0] /\
  sos r = [mkSOS (1 / 2, 1 / 2, 0) (1, 0, 0)] /\
  frequencies r = [0; 5512.5; 11025; 16537.5].
Proof.
  cbv zeta.
  rewrite designFilter_poles, designFilter_zeros, designFilter_sos,
    designFilter_frequencies.
  unfold getAnalogPoles. simpl family. cbv iota. simpl order.
  rewrite butterworthPoles_1.
  unfold buildSOS, pairConjugatePoles. simpl.
  unfold pairStep. simpl. ltb_decide. simpl.
  rewrite omegaA_half_nyquist. unfold bilinear, gridFrequency. simpl.
  unfold zeroZ, evalAt; simpl.
  repeat split; componentwise; first [lra | field].
Qed.

(** * The claims *)

(** C1: for a specification of any of the three families with order at least
    1, a positive Chebyshev ripple and a cutoff strictly between 0 and
    Nyquist (which the clamp to 95% of Nyquist ensures), every digital pole
    returned by [designFilter] has magnitude strictly below 1. *)
Theorem designFilter_poles_inside_unit_circle
        (params : FilterParams) (sampleRate : R) (numFreqPoints : nat) :
  (1 <= order params)%Z ->
  0 < cutoffFrequency params < sampleRate / 2 ->
  rippleOk params ->
  Forall (fun z => Cabs z < 1) (poles (designFilter params sampleRate numFreqPoints)).
Proof.
  intros _ Hfc Hr. rewrite designFilter_poles.
  apply buildSOS_stable.
  - lra.
  - now apply omegaA_pos.
  - now apply getAnalogPoles_left.
Qed.

Lemma designFilter_poles_inside_unit_circle_witness :
  Forall (fun z => Cabs z < 1) (poles (designFilter spec_butter4 44100 1024)).
Proof.
  apply designFilter_poles_inside_unit_circle.
  - simpl; lia.
  - simpl; lra.
  - intros H; discriminate H.
Defined.

(** C3: at an order outside 1..8, here 9, [besselPoles] returns the poles of
    the order-2 table entry as tabulated, not divided by [omega3dB]; this is
    not the pole set [besselPoles 2] returns. *)
Theorem besselPoles_fallback_not_scaled :
  besselPoles 9 = [mkC (-1.1016) 0.6368; mkC (-1.1016) (-0.6368)] /\
  besselPoles 2 = [mkC (-1.1016 / 1.3617) (0.6368 / 1.3617);
                   mkC (-1.1016 / 1.3617) (-0.6368 / 1.3617)] /\
  besselPoles 9 <> besselPoles 2.
Proof.
  split; [reflexivity|]. split; [reflexivity|].
  intros H. apply (f_equal (fun l => re (hd c0 l))) in H. simpl in H. lra.
Qed.

(** C4 fails for Bessel at order 9: the generator returns two poles. *)
Lemma prototypeClaim_fails_bessel9 : ~ prototypeClaim spec_bessel9.
Proof.
  intros H. destruct H as [H _].
  - simpl; lia.
  - intros Hf; discriminate Hf.
  - simpl in H. lia.
Qed.

(** C4, amended: for every order at least 1, every pole the generator
    returns has strictly negative real part; it returns exactly [order]
    poles for Butterworth, for Chebyshev, and for Bessel at orders up to 8;
    for Bessel above order 8 it returns two poles. *)
Theorem prototype_poles (params : FilterParams) :
  (1 <= order params)%Z ->
  rippleOk params ->
  Forall (fun p => re p < 0) (getAnalogPoles params) /\
  ((family params = bessel -> (order params <= 8)%Z) ->
   Z.of_nat (length (getAnalogPoles params)) = order params) /\
  (family params = bessel -> (8 < order params)%Z ->
   length (getAnalogPoles params) = 2%nat).
Proof.
  intros Ho Hr. split; [now apply getAnalogPoles_left|]. split.
  - intros Hb. rewrite getAnalogPoles_length; [lia|]. intros Hf. split; auto.
  - intros Hf Hhi. unfold getAnalogPoles. rewrite Hf.
    rewrite besselPoles_fallback by lia. reflexivity.
Qed.

Lemma prototype_poles_witness :
  Forall (fun p => re p < 0) (getAnalogPoles spec_cheb3) /\
  Z.of_nat (length (getAnalogPoles spec_cheb3)) = 3%Z.
Proof.
  assert (Ho : (1 <= order spec_cheb3)%Z) by (simpl; lia).
  assert (Hr : rippleOk spec_cheb3) by (intros _; simpl; lra).
  destruct (prototype_poles spec_cheb3 Ho Hr) as [Hleft [Hlen _]].
  split; [exact Hleft|]. apply Hlen. intros H; discriminate H.
Defined.

(** C5: below Nyquist, every section [buildSOS] produces from poles of the
    open left half-plane evaluates to exactly 1 at [z = 1] for lowpass and at
    [z = -1] for highpass; in particular every section of [designFilter]
    does. *)
Theorem buildSOS_unity_reference_gain
        (params : FilterParams) (sampleRate : R) (numFreqPoints : nat) :
  0 < cutoffFrequency params < sampleRate / 2 ->
  (forall analogPoles,
      Forall (fun p => re p < 0) analogPoles ->
      Forall (fun s => evalSection s (evalAt params) = 1)
             (b_sos (buildSOS params sampleRate analogPoles))) /\
  (rippleOk params ->
   Forall (fun s => evalSection s (evalAt params) = 1)
          (sos (designFilter params sampleRate numFreqPoints))).
Proof.
  intros Hfc.
  assert (Hfs : 0 < sampleRate) by lra.
  pose proof (omegaA_pos params sampleRate Hfc) as Hw.
  split.
  - intros analogPoles HL. now apply buildSOS_unity.
  - intros Hr. rewrite designFilter_sos.
    apply buildSOS_unity; auto. now apply getAnalogPoles_left.
Qed.

Lemma buildSOS_unity_reference_gain_witness :
  Forall (fun s => evalSection s (-1) = 1)
         (sos (designFilter spec_bessel3_hp 48000 512)).
Proof.
  assert (Hfc : 0 < cutoffFrequency spec_bessel3_hp < 48000 / 2) by (simpl; lra).
  destruct (buildSOS_unity_reference_gain spec_bessel3_hp 48000 512 Hfc) as [_ H].
  apply H. intros Hf; discriminate Hf.
Defined.

(** C6 fails with two grid points at 44100 Hz: the last point is at a quarter
    of the sample rate, half of Nyquist. *)
Lemma gridClaim_fails_two_points : ~ gridClaim spec_butter4 44100 2.
Proof.
  intros H. destruct H as [_ [H _]]; [lia|].
  rewrite designFilter_frequencies in H.
  simpl in H. unfold gridFrequency in H. simpl in H. lra.
Qed.

(** C6, amended: the grid has [numPoints] points, point [i] is at
    [i * (Nyquist / numPoints)]; so it starts at 0, is uniformly spaced, and
    its last point is one step below Nyquist: Nyquist itself is not on the
    grid. *)
Theorem frequency_grid_half_open
        (params : FilterParams) (sampleRate : R) (numPoints : nat) :
  let fr := frequencies (designFilter params sampleRate numPoints) in
  length fr = numPoints /\
  (forall i, (i < numPoints)%nat ->
             nth i fr 0 = INR i * (sampleRate / 2 / INR numPoints)) /\
  ((1 <= numPoints)%nat -> nth 0 fr 0 = 0) /\
  ((1 <= numPoints)%nat -> 0 < sampleRate ->
   nth (numPoints - 1) fr 0 = sampleRate / 2 - sampleRate / 2 / INR numPoints /\
   nth (numPoints - 1) fr 0 < sampleRate / 2).
Proof.
  intros fr. unfold fr. rewrite designFilter_frequencies.
  assert (Hnth : forall i, (i < numPoints)%nat ->
            nth i (map (gridFrequency sampleRate numPoints) (seq 0 numPoints)) 0
            = INR i * (sampleRate / 2 / INR numPoints)).
  { intros i Hi. rewrite gridFrequency_nth by exact Hi.
    unfold gridFrequency. unfold Rdiv. ring. }
  split; [now rewrite length_map, length_seq|].
  split; [exact Hnth|]. split.
  - intros Hn. rewrite Hnth by lia. simpl. ring.
  - intros Hn Hfs. rewrite Hnth by lia.
    assert (HN : 0 < INR numPoints) by (apply lt_0_INR; lia).
    rewrite minus_INR by lia. simpl (INR 1).
    assert (Hstep : 0 < sampleRate / 2 / INR numPoints).
    { apply Rdiv_lt_0_compat; lra. }
    assert (Heq : (INR numPoints - 1) * (sampleRate / 2 / INR numPoints)
                  = sampleRate / 2 - sampleRate / 2 / INR numPoints).
    { field. lra. }
    rewrite Heq. split; [reflexivity | lra].
Qed.

Lemma frequency_grid_half_open_witness :
  nth 3 (frequencies (designFilter spec_butter4 44100 4)) 0 < 44100 / 2.
Proof.
  destruct (frequency_grid_half_open spec_butter4 44100 4) as [_ [_ [_ H]]].
  apply H; [lia | lra].
Defined.

(** C8 fails for Bessel at order 9: the design has two poles and two zeros. *)
Lemma zerosClaim_fails_bessel9 : ~ zerosClaim spec_bessel9 44100 1024.
Proof.
  intros H. destruct H as [_ [H _]]; [simpl; lia | simpl; lra | simpl; lra |].
  destruct (designFilter_counts spec_bessel9 44100 1024) as [Hp _].
  rewrite Hp in H. simpl in H. lia.
Qed.

(** C8, amended: the design always has as many zeros as poles, one per analog
    prototype pole, every zero at (-1, 0) for lowpass and (+1, 0) for
    highpass; for an order of at least 1 that count is the order for
    Butterworth, for Chebyshev, and for Bessel at orders up to 8. *)
Theorem designFilter_zeros_and_poles
        (params : FilterParams) (sampleRate : R) (numFreqPoints : nat) :
  let r := designFilter params sampleRate numFreqPoints in
  length (zeros r) = length (poles r) /\
  length (poles r) = length (getAnalogPoles params) /\
  Forall (fun z => z = match type params with
                       | lowpass => mkC (-1) 0
                       | highpass => mkC 1 0
                       end) (zeros r) /\
  ((1 <= order params)%Z ->
   (family params = bessel -> (order params <= 8)%Z) ->
   Z.of_nat (length (zeros r)) = order params /\
   Z.of_nat (length (poles r)) = order params).
Proof.
  intros r. unfold r.
  destruct (designFilter_counts params sampleRate numFreqPoints) as [Hp Hz].
  split; [congruence|]. split; [exact Hp|]. split.
  - rewrite designFilter_zeros.
    eapply Forall_impl; [|apply buildSOS_zeros].
    intros z ->. unfold zeroZ. destruct (type params); reflexivity.
  - intros Ho Hb. rewrite Hp, Hz.
    rewrite getAnalogPoles_length; [lia|]. intros Hf. split; auto.
Qed.

Lemma designFilter_zeros_and_poles_witness :
  Z.of_nat (length (zeros (designFilter spec_butter4 44100 1024))) = 4%Z /\
  Z.of_nat (length (poles (designFilter spec_butter4 44100 1024))) = 4%Z.
Proof.
  destruct (designFilter_zeros_and_poles spec_butter4 44100 1024) as [_ [_ [_ H]]].
  apply H.
  - simpl; lia.
  - intros Hf; discriminate Hf.
Defined.

(** ** The worklet *)

Lemma Coeffs_eta (c : Coeffs) : mkCoeffs (b0 c) (b1 c) (b2 c) (a1 c) (a2 c) = c.
Proof. now destruct c. Qed.

Lemma incoming_length (msg : list SOSSection) : length (incoming msg) = length msg.
Proof. unfold incoming. apply length_map. Qed.

Lemma INR_256 : INR 256 = 256.
Proof. rewrite INR_IZR_INZ. reflexivity. Qed.



Lemma blend_spec (alpha : R) (secs : list SectionState) :
  forall olds news,
    length secs = length olds -> length olds = length news ->
    exists r, blend alpha secs olds news = Some r /\
              map coeffs r = lerpAll alpha olds news /\
              map delays r = map delays secs.
Proof.
  unfold lerpAll.
  induction secs as [|s secs IH]; intros [|o olds] [|n news] H1 H2;
    simpl in *; try lia.
  - exists []. auto.
  - destruct (IH olds news) as [r [-> [Hc Hd]]]; try lia.
    eexists. split; [reflexivity|]. simpl. now rewrite Hc, Hd.
Qed.

Lemma snap_spec (secs : list SectionState) :
  forall news,
    length secs = length news ->
    exists r, snap secs news = Some r /\
              map coeffs r = news /\
              map delays r = map delays secs.
Proof.
  induction secs as [|s secs IH]; intros [|n news] H; simpl in *; try lia.
  - exists []. auto.
  - destruct (IH news) as [r [-> [Hc Hd]]]; try lia.
    eexists. split; [reflexivity|]. simpl. now rewrite Hc, Hd, Coeffs_eta.
Qed.

Lemma cascade_coeffs (secs : list SectionState) :
  forall x, map coeffs (fst (cascade secs x)) = map coeffs secs.
Proof.
  induction secs as [|s secs IH]; intros x; simpl; auto.
  specialize (IH (b0 (coeffs s) * x + b1 (coeffs s) * x1 s + b2 (coeffs s) * x2 s
                  - a1 (coeffs s) * y1 s - a2 (coeffs s) * y2 s)).
  destruct (cascade secs _) as [rest out]. simpl in *. now rewrite IH.
Qed.

Lemma map_length_eq {A B C : Type} (f : A -> C) (g : B -> C) (l : list A) (m : list B) :
  map f l = map g m -> length l = length m.
Proof. intros H. apply (f_equal (@length C)) in H. now rewrite !length_map in H. Qed.






Lemma processSamples_app (xs ys : list R) :
  forall this,
    processSamples this (xs ++ ys)
    = match processSamples this xs with
      | None => None
      | Some (this', out1) =>
          match processSamples this' ys with
          | None => None
          | Some (this'', out2) => Some (this'', out1 ++ out2)
          end
      end.
Proof.
  induction xs as [|x xs IH]; intros this; simpl.
  - destruct (processSamples this ys) as [[t o]|]; reflexivity.
  - destruct (processSample this x) as [[t1 y]|]; [|reflexivity].
    rewrite IH. destruct (processSamples t1 xs) as [[t2 o1]|]; [|reflexivity].
    destruct (processSamples t2 ys) as [[t3 o2]|]; reflexivity.
Qed.

Lemma blend_length (alpha : R) (secs : list SectionState) :
  forall olds news r, blend alpha secs olds news = Some r -> length r = length secs.
Proof.
  induction secs as [|s secs IH]; intros olds news r H; simpl in *.
  - now inversion H.
  - destruct olds as [|o olds]; [discriminate|].
    destruct news as [|n news]; [discriminate|].
    destruct (blend alpha secs olds news) as [rest|] eqn:E; [|discriminate].
    inversion H; subst. simpl. f_equal. eapply IH; eauto.
Qed.

Lemma snap_length (secs : list SectionState) :
  forall news r, snap secs news = Some r -> length r = length secs.
Proof.
  induction secs as [|s secs IH]; intros news r H; simpl in *.
  - now inversion H.
  - destruct news as [|n news]; [discriminate|].
    destruct (snap secs news) as [rest|] eqn:E; [|discriminate].
    inversion H; subst. simpl. f_equal. eapply IH; eauto.
Qed.

Lemma advance_length this this' :
  advance this = Some this' -> length (sections this') = length (sections this).
Proof.
  unfold advance. destruct (interpolating this); [|now intros [= <-]].
  destruct (oldCoeffs this) as [olds|]; [|discriminate].
  destruct (newCoeffs this) as [news|]; [|discriminate].
  destruct (blend _ _ _ _) as [r|] eqn:Hb; [|discriminate].
  apply blend_length in Hb.
  destruct (_ <=? _)%nat.
  - destruct (snap r news) as [r'|] eqn:Hs; [|discriminate].
    apply snap_length in Hs. intros [= <-]. simpl. lia.
  - intros [= <-]. simpl. lia.
Qed.

Lemma processSample_length this x this' y :
  processSample this x = Some (this', y) ->
  length (sections this') = length (sections this).
Proof.
  unfold processSample. destruct (advance this) as [t1|] eqn:Ha; [|discriminate].
  apply advance_length in Ha.
  pose proof (cascade_coeffs (sections t1) x) as Hc.
  destruct (cascade (sections t1) x) as [secs out].
  intros [= <- _]. simpl in *. apply map_length_eq in Hc. lia.
Qed.

Lemma processSamples_length (xs : list R) :
  forall this this' ys,
    processSamples this xs = Some (this', ys) ->
    length (sections this') = length (sections this).
Proof.
  induction xs as [|x xs IH]; intros this this' ys H; simpl in H.
  - now inversion H.
  - destruct (processSample this x) as [[t1 y]|] eqn:H1; [|discriminate].
    destruct (processSamples t1 xs) as [[t2 o]|] eqn:H2; [|discriminate].
    inversion H; subst. apply IH in H2. apply processSample_length in H1. lia.
Qed.

(** With at least one section, a run of blocks is the run of their samples. *)
Lemma processBlocks_concat (blocks : list (list R)) :
  forall this, sections this <> [] ->
               processBlocks this blocks = processSamples this (concat blocks).
Proof.
  induction blocks as [|blk blocks IH]; intros this Hne; simpl; auto.
  rewrite processSamples_app.
  destruct (sections this) as [|s0 secs] eqn:Hs; [congruence|].
  destruct (processSamples this blk) as [[t1 o1]|] eqn:H1; [|reflexivity].
  rewrite IH; [reflexivity|].
  apply processSamples_length in H1. rewrite Hs in H1.
  intros E. rewrite E in H1. discriminate H1.
Qed.

Lemma update_same_count this msg :
  length msg = length (sections this) ->
  _updateCoefficients this msg
  = mkProc (sections this) (Some (map coeffs (sections this))) (Some (incoming msg))
           0 (interpFrames this) true.
Proof.
  intros H. unfold _updateCoefficients.
  rewrite incoming_length, H, Nat.eqb_refl. simpl. do 2 f_equal.
  apply map_ext. intros s. apply Coeffs_eta.
Qed.

Lemma update_other_count this msg :
  length msg <> length (sections this) ->
  _updateCoefficients this msg
  = mkProc (map (fun c => mkSection c 0 0 0 0) (incoming msg))
           (oldCoeffs this) (newCoeffs this) (interpPos this) (interpFrames this) false.
Proof.
  intros H. unfold _updateCoefficients.
  rewrite incoming_length. apply Nat.eqb_neq in H. now rewrite H.
Qed.





Lemma oneSection_eq :
  oneSection = mkProc [mkSection (mkCoeffs 0 0 0 0 0) 0 0 0 0] None None 0 256 false.
Proof. reflexivity. Qed.

(** The first two samples of a transition of [b0] from 0 to 1 on a constant
    input 1: the first is filtered with [b0 = 0], the second with
    [b0 = 1/256]. *)
Example transition_first_samples :
  match processSamples (_updateCoefficients oneSection unitMessage) [1; 1] with
  | Some (this', out) =>
      out = [0; 1 / 256] /\
      map coeffs (sections this') = [mkCoeffs (1 / 256) 0 0 0 0] /\
      map delays (sections this') = [(1, 1, 1 / 256, 0)] /\
      interpPos this' = 2%nat /\ interpolating this' = true
  | None => False
  end.
Proof.
  rewrite oneSection_eq. unfold _updateCoefficients.
  cbn -[INR]. rewrite INR_256. cbn. unfold lerp, delays. cbn.
  repeat split; componentwise; first [lra | field].
Qed.

(** With no sections [process] passes the input through and never runs the
    interpolation block: a transition between two empty cascades stays
    open. *)
Lemma empty_transition_stays_open (blocks : list (list R)) :
  processBlocks (_updateCoefficients constructor []) blocks
  = Some (_updateCoefficients constructor [], concat blocks) /\
  interpolating (_updateCoefficients constructor []) = true.
Proof.
  split; [|reflexivity].
  induction blocks as [|blk blocks IH]; [reflexivity|].
  cbn [processBlocks]. change (process (_updateCoefficients constructor []) (Some blk))
    with (Some (_updateCoefficients constructor [], blk)).
  cbv beta iota. rewrite IH. reflexivity.
Qed.




(** C7: an update whose section count differs from the current one leaves
    the processor with exactly the incoming coefficients, all delay memory
    zero, and no interpolation in progress, whatever the prior state. *)
Theorem update_different_count_resets (this : FilterProcessor) (msg : list SOSSection) :
  length msg <> length (sections this) ->
  let updated := _updateCoefficients this msg in
  map coeffs (sections updated) = incoming msg /\
  Forall (fun s => x1 s = 0 /\ x2 s = 0 /\ y1 s = 0 /\ y2 s = 0) (sections updated) /\
  interpolating updated = false.
Proof.
  intros H updated. unfold updated. rewrite update_other_count by exact H. simpl.
  split; [|split; [|reflexivity]].
  - rewrite map_map. simpl. apply map_id.
  - apply Forall_map, Forall_forall. intros c _. simpl. auto.
Qed.

Lemma update_different_count_resets_witness :
  map coeffs (sections (_updateCoefficients constructor unitMessage)) = incoming unitMessage /\
  Forall (fun s => x1 s = 0 /\ x2 s = 0 /\ y1 s = 0 /\ y2 s = 0)
         (sections (_updateCoefficients constructor unitMessage)) /\
  interpolating (_updateCoefficients constructor unitMessage) = false.
Proof.
  apply (update_different_count_resets constructor unitMessage).
  simpl. lia.
Defined.

(** C9: an update with the same section count leaves the sections, and with
    them every section's delay memory, as they were; it changes only
    [oldCoeffs], [newCoeffs], [interpPos] and [interpolating]. *)
Theorem update_same_count_keeps_delay_memory
        (this : FilterProcessor) (msg : list SOSSection) :
  length msg = length (sections this) ->
  let updated := _updateCoefficients this msg in
  sections updated = sections this /\
  map delays (sections updated) = map delays (sections this) /\
  interpFrames updated = interpFrames this /\
  oldCoeffs updated = Some (map coeffs (sections this)) /\
  newCoeffs updated = Some (incoming msg) /\
  interpPos updated = 0%nat /\
  interpolating updated = true.
Proof.
  intros H updated. unfold updated. rewrite update_same_count by exact H.
  simpl. repeat split; reflexivity.
Qed.

Lemma update_same_count_keeps_delay_memory_witness :
  sections (_updateCoefficients oneSection unitMessage) = sections oneSection /\
  map delays (sections (_updateCoefficients oneSection unitMessage))
  = map delays (sections oneSection) /\
  interpFrames (_updateCoefficients oneSection unitMessage) = interpFrames oneSection /\
  oldCoeffs (_updateCoefficients oneSection unitMessage)
  = Some (map coeffs (sections oneSection)) /\
  newCoeffs (_updateCoefficients oneSection unitMessage) = Some (incoming unitMessage) /\
  interpPos (_updateCoefficients oneSection unitMessage) = 0%nat /\
  interpolating (_updateCoefficients oneSection unitMessage) = true.
Proof.
  apply (update_same_count_keeps_delay_memory oneSection unitMessage).
  reflexivity.
Defined.

(** * Further properties of the design engine *)

Lemma nth_map_range {A : Type} (f : Z -> A) (n : Z) (i : nat) (d : A) :
  (i < Z.to_nat n)%nat -> nth i (map f (range n)) d = f (Z.of_nat i).
Proof.
  intros Hi. unfold range. rewrite map_map.
  rewrite nth_indep with (d' := f (Z.of_nat 0))
    by (now rewrite length_map, length_seq).
  rewrite (map_nth (fun x => f (Z.of_nat x))), seq_nth by exact Hi. reflexivity.
Qed.

(** X1: [bilinear] commutes with complex conjugation, so a conjugate pair of
    analog poles becomes a conjugate pair of digital poles. *)
Theorem bilinear_conj (s : Complex) (sampleRate : R) :
  bilinear (conjugate s) sampleRate = conjugate (bilinear s sampleRate).
Proof.
  unfold bilinear, conjugate; simpl.
  set (h := 1 / sampleRate / 2).
  replace ((1 - re s * h) * (1 - re s * h) + - - im s * h * (- - im s * h))
    with ((1 - re s * h) * (1 - re s * h) + - im s * h * (- im s * h)) by ring.
  f_equal; unfold Rdiv; ring.
Qed.

(** X2: a point of the imaginary axis, the analog frequency axis, is mapped
    onto the unit circle. *)
Theorem bilinear_imaginary_axis (s : Complex) (sampleRate : R) :
  re s = 0 ->
  onUnitCircle (bilinear s sampleRate) /\ Cabs (bilinear s sampleRate) = 1.
Proof.
  intros Hre.
  assert (H : onUnitCircle (bilinear s sampleRate)).
  { unfold onUnitCircle, bilinear; simpl. rewrite Hre.
    replace (0 * (1 / sampleRate / 2)) with 0 by ring.
    replace (- im s * (1 / sampleRate / 2)) with (- (im s * (1 / sampleRate / 2))) by ring.
    generalize (im s * (1 / sampleRate / 2)). intros c.
    assert (0 < 1 + c * c) by nra. field. nra. }
  split; [exact H|]. unfold Cabs. unfold onUnitCircle in H. rewrite H. apply sqrt_1.
Qed.

Lemma bilinear_imaginary_axis_witness :
  onUnitCircle (bilinear (mkC 0 3) 44100) /\ Cabs (bilinear (mkC 0 3) 44100) = 1.
Proof. apply bilinear_imaginary_axis. reflexivity. Defined.

(** X3: every Butterworth pole lies on the unit circle, and pole
    [order - 1 - k] is the conjugate of pole [k]. *)
Theorem butterworthPoles_circle_and_conjugates (order : Z) :
  Forall onUnitCircle (butterworthPoles order) /\
  forall k, (k < Z.to_nat order)%nat ->
            nth (Z.to_nat order - 1 - k) (butterworthPoles order) c0
            = conjugate (nth k (butterworthPoles order) c0).
Proof.
  split.
  - unfold butterworthPoles. apply Forall_map, Forall_forall. intros k _.
    unfold onUnitCircle; simpl.
    pose proof (sin2_cos2 (PI * (2 * IZR k + IZR order + 1) / (2 * IZR order))) as H.
    unfold Rsqr in H. lra.
  - intros k Hk. unfold butterworthPoles.
    rewrite !nth_map_range by lia. unfold conjugate; simpl.
    assert (HN : 1 <= IZR order) by (apply IZR_le; lia).
    rewrite Nat2Z.inj_sub, Nat2Z.inj_sub, Z2Nat.id by lia.
    rewrite !minus_IZR. simpl (IZR (Z.of_nat 1)).
    set (K := IZR (Z.of_nat k)). set (N := IZR order) in *.
    replace (PI * (2 * (N - 1 - K) + N + 1) / (2 * N))
      with (- (PI * (2 * K + N + 1) / (2 * N)) + 2 * INR 1 * PI)
      by (change (INR 1) with 1; field; lra).
    now rewrite cos_period, sin_period, cos_neg, sin_neg.
Qed.

Lemma butterworthPoles_circle_and_conjugates_witness :
  nth 3 (butterworthPoles 4) c0 = conjugate (nth 0 (butterworthPoles 4) c0).
Proof.
  destruct (butterworthPoles_circle_and_conjugates 4) as [_ H].
  apply (H 0%nat). simpl. lia.
Defined.

(** X4: Chebyshev pole [order - 1 - k] is the conjugate of pole [k]. *)
Theorem chebyshevPoles_conjugates (order : Z) (rippleDb : R) (k : nat) :
  (k < Z.to_nat order)%nat ->
  nth (Z.to_nat order - 1 - k) (cheb_poles (chebyshevPoles order rippleDb)) c0
  = conjugate (nth k (cheb_poles (chebyshevPoles order rippleDb)) c0).
Proof.
  intros Hk. unfold chebyshevPoles; simpl.
  rewrite !nth_map_range by lia. unfold conjugate; simpl.
  assert (HN : 1 <= IZR order) by (apply IZR_le; lia).
  rewrite Nat2Z.inj_sub, Nat2Z.inj_sub, Z2Nat.id by lia.
  rewrite !minus_IZR. simpl (IZR (Z.of_nat 1)).
  set (K := IZR (Z.of_nat k)). set (N := IZR order) in *.
  replace (PI * (2 * (N - 1 - K) + 1) / (2 * N))
    with (PI - PI * (2 * K + 1) / (2 * N)) by (field; lra).
  rewrite sin_PI_x, Rtrigo_facts.cos_pi_minus. f_equal. ring.
Qed.

Lemma chebyshevPoles_conjugates_witness :
  nth 2 (cheb_poles (chebyshevPoles 3 0.5)) c0
  = conjugate (nth 0 (cheb_poles (chebyshevPoles 3 0.5)) c0).
Proof. apply (chebyshevPoles_conjugates 3 0.5 0). simpl. lia. Defined.

Lemma pairConjugatePoles_length_bounds (poles : list Complex) :
  (length (pairConjugatePoles poles) <= length poles
   <= 2 * length (pairConjugatePoles poles))%nat.
Proof.
  pose proof (pairConjugatePoles_count poles) as Hc.
  assert (H : forall secs, (length secs <= poleCount secs <= 2 * length secs)%nat).
  { induction secs as [|[p|p q] secs IH]; simpl; lia. }
  specialize (H (pairConjugatePoles poles)). lia.
Qed.

(** X5: a design has at most as many sections as poles and at least half as
    many: every section accounts for one or two poles. *)
Theorem designFilter_section_count
        (params : FilterParams) (sampleRate : R) (numFreqPoints : nat) :
  let r := designFilter params sampleRate numFreqPoints in
  (length (sos r) <= length (poles r) <= 2 * length (sos r))%nat.
Proof.
  intros r. unfold r.
  destruct (designFilter_counts params sampleRate numFreqPoints) as [Hp _].
  rewrite Hp, designFilter_sos. unfold buildSOS.
  destruct (buildSOS_lengths params sampleRate
              (pairConjugatePoles (getAnalogPoles params)) (mkBuild [] [] []))
    as [_ [_ H3]].
  rewrite H3. simpl. apply pairConjugatePoles_length_bounds.
Qed.

(** X6: every section [buildSOS] produces has a monic denominator and a
    numerator that is its gain times [(1 - zeroZ z^-1)] (first order, with
    [b2 = a2 = 0]) or [(1 - zeroZ z^-1)^2] (second order): lowpass sections
    have all zeros at [z = -1], highpass sections at [z = 1]. *)
Theorem buildSOS_section_shape
        (params : FilterParams) (sampleRate : R) (analogPoles : list Complex) :
  Forall (sectionShape (zeroZ params))
         (b_sos (buildSOS params sampleRate analogPoles)).
Proof.
  unfold buildSOS. apply buildSOS_inv; [constructor|].
  intros x [p|p q] _ Hx; simpl; apply Forall_app; split; auto;
    (apply Forall_cons; [|apply Forall_nil]); unfold sectionShape; simpl.
  - split; [reflexivity|]. left. repeat split; ring.
  - split; [reflexivity|]. right.
    destruct (evalAt_zeroZ params) as [[_ ->]|[_ ->]]; split; ring.
Qed.

Lemma stable_first_order (num : R * R * R) (u : R) :
  u * u < 1 -> stableSection (mkSOS num (1, - u, 0)).
Proof.
  intros H. unfold stableSection; simpl. rewrite Rabs_R0, Rabs_Ropp. split; [lra|].
  apply Rabs_def1; nra.
Qed.

Lemma stable_second_order (num : R * R * R) (u1 v1 u2 v2 : R) :
  u1 * u1 + v1 * v1 < 1 -> u2 * u2 + v2 * v2 < 1 -> v1 * v2 < 0 ->
  stableSection (mkSOS num (1, - (u1 + u2), u1 * u2 - v1 * v2)).
Proof.
  intros H1 H2 Hv. unfold stableSection; simpl.
  assert (Hu1 : -1 < u1 < 1) by nra.
  assert (Hu2 : -1 < u2 < 1) by nra.
  assert (Hlo : 0 < (1 - u1) * (1 - u2) - v1 * v2) by nra.
  assert (Hhi : 0 < (1 + u1) * (1 + u2) - v1 * v2) by nra.
  assert (Hid : (u1 * u2 - v1 * v2) * (u1 * u2 - v1 * v2)
                = (u1 * u1 + v1 * v1) * (u2 * u2 + v2 * v2)
                  - (u1 * v2 + v1 * u2) * (u1 * v2 + v1 * u2)) by ring.
  assert (Hsq : 0 <= (u1 * v2 + v1 * u2) * (u1 * v2 + v1 * u2))
    by (apply (Rle_0_sqr (u1 * v2 + v1 * u2))).
  assert (HA : 0 <= u1 * u1 + v1 * v1).
  { pose proof (Rle_0_sqr u1). pose proof (Rle_0_sqr v1). unfold Rsqr in *. lra. }
  assert (HB : 0 <= u2 * u2 + v2 * v2).
  { pose proof (Rle_0_sqr u2). pose proof (Rle_0_sqr v2). unfold Rsqr in *. lra. }
  set (A := u1 * u1 + v1 * v1) in *. set (B := u2 * u2 + v2 * v2) in *.
  assert (Hprod : A * B < 1) by nra.
  set (a2 := u1 * u2 - v1 * v2) in *.
  assert (Ha2 : a2 * a2 < 1) by lra.
  assert (Hb2 : -1 < a2 < 1) by nra.
  split.
  - apply Rabs_def1; lra.
  - rewrite Rabs_Ropp. unfold a2 in *. apply Rabs_def1; lra.
Qed.

Lemma buildSOS_stable_sections params sampleRate (analogPoles : list Complex) :
  0 < sampleRate -> 0 < omegaA params sampleRate ->
  Forall (fun p => re p < 0) analogPoles ->
  Forall stableSection (b_sos (buildSOS params sampleRate analogPoles)).
Proof.
  intros Hfs Hw HL. apply pairConjugatePoles_left in HL.
  rewrite Forall_forall in HL.
  unfold buildSOS. apply buildSOS_inv; [constructor|].
  intros x [p|p q] Hs Hx; specialize (HL _ Hs); simpl in HL; simpl;
    apply Forall_app; split; auto;
    (apply Forall_cons; [|apply Forall_nil]).
  - set (zp := bilinear (mkC (omegaA params sampleRate * re p) 0) sampleRate).
    assert (Hb : re zp * re zp + im zp * im zp < 1).
    { apply bilinear_inside; simpl; auto; nra. }
    apply (stable_first_order _ (re zp)). nra.
  - destruct HL as [Hp [Hq Him]].
    set (zp1 := bilinear (mkC (omegaA params sampleRate * re p)
                              (omegaA params sampleRate * im p)) sampleRate).
    set (zp2 := bilinear (mkC (omegaA params sampleRate * re q)
                              (omegaA params sampleRate * im q)) sampleRate).
    apply (stable_second_order _ (re zp1) (im zp1) (re zp2) (im zp2)).
    + apply bilinear_inside; simpl; auto; nra.
    + apply bilinear_inside; simpl; auto; nra.
    + apply bilinear_im_product; simpl; auto; try nra.
      assert (0 < omegaA params sampleRate * omegaA params sampleRate) by nra.
      nra.
Qed.

(** X7: below Nyquist every section of a design is a stable biquad: its
    denominator coefficients satisfy [|a2| < 1] and [|a1| < 1 + a2]. *)
Theorem designFilter_sections_stable
        (params : FilterParams) (sampleRate : R) (numFreqPoints : nat) :
  0 < cutoffFrequency params < sampleRate / 2 ->
  rippleOk params ->
  Forall stableSection (sos (designFilter params sampleRate numFreqPoints)).
Proof.
  intros Hfc Hr. rewrite designFilter_sos.
  apply buildSOS_stable_sections.
  - lra.
  - now apply omegaA_pos.
  - now apply getAnalogPoles_left.
Qed.

Lemma designFilter_sections_stable_witness :
  Forall stableSection (sos (designFilter spec_cheb3 48000 256)).
Proof.
  apply designFilter_sections_stable.
  - simpl; lra.
  - intros _; simpl; lra.
Defined.

Lemma clamped_below_nyquist (params : FilterParams) (sampleRate : R) :
  0 < sampleRate -> 0 < cutoffFrequency params ->
  0 < cutoffFrequency (clamped params sampleRate) < sampleRate / 2.
Proof.
  intros Hfs Hfc. unfold clamped; simpl. unfold Rmin.
  destruct (Rle_dec _ _); lra.
Qed.

Lemma sendCoefficients_sos (params : FilterParams) (sampleRate : R) :
  sendCoefficients params sampleRate
  = sos (designFilter (clamped params sampleRate) sampleRate 1024).
Proof.
  unfold sendCoefficients. rewrite <- (map_id (sos _)) at 2.
  apply map_ext. now intros [x y].
Qed.

(** X8: whatever positive cutoff is requested, also one at or above Nyquist,
    the sections [sendCoefficients] posts to the worklet are stable biquads
    with gain exactly 1 at the reference point: the clamp to 95% of Nyquist
    makes up for the caller. *)
Theorem sendCoefficients_stable_unity (params : FilterParams) (sampleRate : R) :
  0 < sampleRate ->
  0 < cutoffFrequency params ->
  rippleOk params ->
  Forall (fun s => stableSection s /\ evalSection s (evalAt params) = 1)
         (sendCoefficients params sampleRate).
Proof.
  intros Hfs Hfc Hr. rewrite sendCoefficients_sos, designFilter_sos.
  pose proof (clamped_below_nyquist params sampleRate Hfs Hfc) as Hc.
  assert (Hr' : rippleOk (clamped params sampleRate)) by exact Hr.
  pose proof (omegaA_pos _ _ Hc) as Hw.
  pose proof (getAnalogPoles_left _ Hr') as HL.
  pose proof (buildSOS_stable_sections _ _ _ Hfs Hw HL) as H1.
  pose proof (buildSOS_unity _ _ _ Hfs Hw HL) as H2.
  rewrite Forall_forall in *. intros s Hs. split; auto.
Qed.

Lemma sendCoefficients_stable_unity_witness :
  Forall (fun s => stableSection s /\ evalSection s 1 = 1)
         (sendCoefficients (mkParams butterworth lowpass 4 30000 1) 44100).
Proof.
  apply (sendCoefficients_stable_unity (mkParams butterworth lowpass 4 30000 1) 44100).
  - lra.
  - simpl; lra.
  - intros H; discriminate H.
Defined.

(** ** The frequency response *)

Lemma ln_10_pos : 0 < ln 10.
Proof. rewrite <- ln_1. apply ln_increasing; lra. Qed.

Lemma ln_floor : ln 1e-12 = -12 * ln 10.
Proof.
  replace 1e-12 with (/ (10 ^ 12)) by (simpl; lra).
  rewrite ln_Rinv by (apply pow_lt; lra).
  rewrite ln_pow by lra. rewrite INR_IZR_INZ. simpl. ring.
Qed.

(** 20 log10 of the floored magnitude is at least -240 dB. *)
Lemma dB_floor (mag : R) : -240 <= 20 * Math.log10 (Math.max mag 1e-12).
Proof.
  unfold Math.log10, Math.max.
  pose proof ln_10_pos as H10.
  assert (Hm : 1e-12 <= Rmax mag 1e-12) by apply Rmax_r.
  assert (Hln : ln 1e-12 <= ln (Rmax mag 1e-12)).
  { destruct Hm as [Hlt|Heq].
    - left. apply ln_increasing; lra.
    - rewrite <- Heq. lra. }
  rewrite ln_floor in Hln.
  assert (Hq : -12 <= ln (Rmax mag 1e-12) / ln 10).
  { apply Rmult_le_reg_r with (ln 10); [exact H10|].
    unfold Rdiv. rewrite Rmult_assoc, Rinv_l by lra. lra. }
  lra.
Qed.

(** A total response of exactly 1 reads as 0 dB and zero phase. *)
Lemma dB_unit : 20 * Math.log10 (Math.max (sqrt (1 * 1 + 0 * 0)) 1e-12) = 0.
Proof.
  replace (1 * 1 + 0 * 0) with 1 by ring. rewrite sqrt_1.
  unfold Math.log10, Math.max. rewrite Rmax_left by lra. rewrite ln_1.
  unfold Rdiv. ring.
Qed.

Lemma phase_unit : Math.atan2 0 1 = 0.
Proof.
  unfold Math.atan2. destruct (Rlt_dec 0 1) as [_|H]; [|lra].
  replace (0 / 1) with 0 by field. apply atan_0.
Qed.

Lemma accumulate_unity (s : SOSSection) :
  evalSection s 1 = 1 -> accumulate 1 0 1 0 (1, 0) s = (1, 0).
Proof.
  destruct s as [[[n0 n1] n2] [[d0 d1] d2]].
  unfold evalSection, accumulate; simpl. rewrite Rinv_1. intros H.
  assert (Hd : 1 + d1 + d2 <> 0).
  { intros E. replace (1 + d1 * 1 + d2 * (1 * 1)) with 0 in H by lra.
    unfold Rdiv in H. rewrite Rinv_0 in H. lra. }
  assert (Hn : n0 + n1 + n2 = 1 + d1 + d2).
  { replace (n0 + n1 * 1 + n2 * (1 * 1)) with (n0 + n1 + n2) in H by ring.
    replace (1 + d1 * 1 + d2 * (1 * 1)) with (1 + d1 + d2) in H by ring.
    apply (Rmult_eq_compat_r (1 + d1 + d2)) in H.
    unfold Rdiv in H. rewrite Rmult_assoc, Rinv_l in H by exact Hd. lra. }
  replace (n0 + n1 * 1 + n2 * 1) with (1 + d1 + d2) by lra.
  f_equal; field; lra.
Qed.

Lemma totalResponse_dc (secs : list SOSSection) (sampleRate : R) :
  Forall (fun s => evalSection s 1 = 1) secs ->
  totalResponse secs sampleRate 0 = (1, 0).
Proof.
  intros HF. unfold totalResponse.
  replace (2 * PI * 0 / sampleRate) with 0 by (unfold Rdiv; ring).
  replace (2 * 0) with 0 by ring. rewrite cos_0, sin_0.
  induction HF as [|s secs Hs _ IH]; simpl; auto.
  now rewrite accumulate_unity.
Qed.

(** X9: a lowpass design below Nyquist reads exactly 0 dB with zero phase at
    its first grid point, frequency 0. *)
Theorem designFilter_lowpass_dc
        (params : FilterParams) (sampleRate : R) (numFreqPoints : nat) :
  type params = lowpass ->
  0 < cutoffFrequency params < sampleRate / 2 ->
  rippleOk params ->
  (1 <= numFreqPoints)%nat ->
  let r := designFilter params sampleRate numFreqPoints in
  nth 0 (frequencies r) 1 = 0 /\
  nth 0 (magnitudeDb r) 1 = 0 /\
  nth 0 (phase r) 1 = 0.
Proof.
  intros Hlp Hfc Hr Hn r.
  assert (Hfs : 0 < sampleRate) by lra.
  assert (HU : Forall (fun s => evalSection s 1 = 1)
                      (b_sos (buildSOS params sampleRate (getAnalogPoles params)))).
  { pose proof (buildSOS_unity params sampleRate (getAnalogPoles params) Hfs
                  (omegaA_pos _ _ Hfc) (getAnalogPoles_left _ Hr)) as H.
    unfold evalAt in H. now rewrite Hlp in H. }
  destruct numFreqPoints as [|n]; [lia|].
  unfold r, designFilter, evalSOS.
  cbn [frequencies magnitudeDb phase r_frequencies r_magnitudeDb r_phase seq map nth].
  assert (H0 : gridFrequency sampleRate (S n) 0 = 0).
  { unfold gridFrequency. cbn [INR]. unfold Rdiv. ring. }
  rewrite H0, totalResponse_dc by exact HU.
  split; [reflexivity|]. split; [apply dB_unit | apply phase_unit].
Qed.

Lemma designFilter_lowpass_dc_witness :
  nth 0 (magnitudeDb (designFilter spec_butter4 44100 1024)) 1 = 0.
Proof.
  assert (Hfc : 0 < cutoffFrequency spec_butter4 < 44100 / 2) by (simpl; lra).
  assert (Hr : rippleOk spec_butter4) by (intros H; discriminate H).
  assert (Hn : (1 <= 1024)%nat) by lia.
  destruct (designFilter_lowpass_dc spec_butter4 44100 1024 eq_refl Hfc Hr Hn)
    as [_ [H _]].
  exact H.
Defined.

(** X10: [evalSOS] returns three arrays of [numPoints] entries each, and no
    magnitude is below -240 dB, whatever the sections are: the magnitude is
    floored at 1e-12 before the logarithm. *)
Theorem evalSOS_lengths_and_floor
        (secs : list SOSSection) (sampleRate : R) (numPoints : nat) :
  let r := evalSOS secs sampleRate numPoints in
  length (r_frequencies r) = numPoints /\
  length (r_magnitudeDb r) = numPoints /\
  length (r_phase r) = numPoints /\
  Forall (fun m => -240 <= m) (r_magnitudeDb r).
Proof.
  intros r. unfold r, evalSOS. cbn [r_frequencies r_magnitudeDb r_phase].
  rewrite !length_map, length_seq. repeat split.
  apply Forall_map, Forall_forall. intros [tRe tIm] _. apply dB_floor.
Qed.

Lemma evalSOS_nil_flat (sampleRate : R) (numPoints : nat) :
  Forall (fun m => m = 0) (r_magnitudeDb (evalSOS [] sampleRate numPoints)) /\
  Forall (fun ph => ph = 0) (r_phase (evalSOS [] sampleRate numPoints)).
Proof.
  unfold evalSOS. cbn [r_magnitudeDb r_phase].
  split; apply Forall_map, Forall_map, Forall_forall; intros f _;
    unfold totalResponse; simpl; [apply dB_unit | apply phase_unit].
Qed.

(** X11: with no sections the response is flat: 0 dB and zero phase at every
    grid point. *)
Theorem evalSOS_empty_cascade (sampleRate : R) (numPoints : nat) :
  Forall (fun m => m = 0) (r_magnitudeDb (evalSOS [] sampleRate numPoints)) /\
  Forall (fun ph => ph = 0) (r_phase (evalSOS [] sampleRate numPoints)).
Proof. apply evalSOS_nil_flat. Qed.

Lemma range_nonpositive (n : Z) : (n <= 0)%Z -> range n = [].
Proof. intros H. unfold range. now replace (Z.to_nat n) with 0%nat by lia. Qed.

(** X24: an order below 1 is not rejected.  For Butterworth and Chebyshev
    the design is then empty, no poles, zeros or sections, and its response
    is flat at 0 dB. *)
Theorem designFilter_order_below_one
        (params : FilterParams) (sampleRate : R) (numFreqPoints : nat) :
  (order params < 1)%Z ->
  family params <> bessel ->
  let r := designFilter params sampleRate numFreqPoints in
  poles r = [] /\ zeros r = [] /\ sos r = [] /\
  Forall (fun m => m = 0) (magnitudeDb r).
Proof.
  intros Ho Hf r.
  assert (Hp : getAnalogPoles params = []).
  { unfold getAnalogPoles. destruct (family params); [| |congruence].
    - unfold butterworthPoles. now rewrite range_nonpositive by lia.
    - unfold chebyshevPoles; simpl. now rewrite range_nonpositive by lia. }
  unfold r, designFilter. rewrite Hp.
  change (buildSOS params sampleRate []) with (mkBuild [] [] []).
  cbn [poles zeros sos magnitudeDb zPoles zZeros b_sos].
  repeat split. apply evalSOS_nil_flat.
Qed.

Lemma designFilter_order_below_one_witness :
  sos (designFilter (mkParams chebyshev lowpass 0 1000 1) 44100 16) = [].
Proof.
  destruct (designFilter_order_below_one (mkParams chebyshev lowpass 0 1000 1) 44100 16)
    as [_ [_ [H _]]].
  - simpl; lia.
  - discriminate.
  - exact H.
Defined.

(** * Further properties of the worklet *)

Lemma processBlocks_idle (this : FilterProcessor) (blocks : list (list R)) :
  sections this = [] ->
  processBlocks this blocks = Some (this, concat blocks).
Proof.
  intros He. induction blocks as [|blk blocks IH]; [reflexivity|].
  cbn [processBlocks process]. rewrite He, IH. reflexivity.
Qed.

(** X12: with no sections configured the processor passes every block
    through unchanged and does not change its state, whatever the state is. *)
Theorem process_idle_passthrough (this : FilterProcessor) (blocks : list (list R)) :
  sections this = [] ->
  processBlocks this blocks = Some (this, concat blocks).
Proof. apply processBlocks_idle. Qed.

Lemma process_idle_passthrough_witness :
  processBlocks constructor [[1; 2]; [3]] = Some (constructor, [1; 2; 3]).
Proof. apply (process_idle_passthrough constructor [[1; 2]; [3]]). reflexivity. Defined.

(** X13: how the samples are cut into blocks does not matter: processing
    blocks one after the other gives the state and the output of processing
    all their samples as one block. *)
Theorem process_block_boundaries (this : FilterProcessor) (blocks : list (list R)) :
  processBlocks this blocks = process this (Some (concat blocks)).
Proof.
  destruct (sections this) as [|s0 secs] eqn:Hs.
  - rewrite processBlocks_idle by exact Hs. unfold process. now rewrite Hs.
  - rewrite processBlocks_concat by (rewrite Hs; discriminate).
    unfold process. now rewrite Hs.
Qed.

Lemma wellFormed_sections (this : FilterProcessor) secs :
  wellFormed this -> length secs = length (sections this) ->
  wellFormed (mkProc secs (oldCoeffs this) (newCoeffs this)
                     (interpPos this) (interpFrames this) (interpolating this)).
Proof.
  intros Hw Hl Hi. simpl in *. destruct (Hw Hi) as [o [n [Ho [Hn [H1 H2]]]]].
  exists o, n. repeat split; auto. lia.
Qed.

Lemma advance_total (this : FilterProcessor) :
  wellFormed this ->
  exists this', advance this = Some this' /\ wellFormed this' /\
                length (sections this') = length (sections this).
Proof.
  intros Hw. unfold advance. destruct (interpolating this) eqn:Hi.
  - destruct (Hw Hi) as [o [n [Ho [Hn [H1 H2]]]]]. rewrite Ho, Hn.
    destruct (blend_spec (INR (interpPos this) / INR (interpFrames this))
                         (sections this) o n H1 H2) as [r [-> [_ Hd]]].
    assert (Hr : length r = length (sections this)) by (now apply map_length_eq in Hd).
    destruct (_ <=? _)%nat.
    + destruct (snap_spec r n) as [r' [-> [_ Hd']]]; [lia|].
      eexists. split; [reflexivity|]. split.
      * intros Hc; discriminate Hc.
      * simpl. apply map_length_eq in Hd'. lia.
    + eexists. split; [reflexivity|]. split.
      * intros _. simpl. exists o, n. repeat split; auto. lia.
      * simpl. exact Hr.
  - exists this. split; [reflexivity|]. split; [exact Hw | reflexivity].
Qed.

Lemma processSample_total (this : FilterProcessor) (x : R) :
  wellFormed this ->
  exists this' y, processSample this x = Some (this', y) /\ wellFormed this'.
Proof.
  intros Hw. destruct (advance_total this Hw) as [t1 [Ha [Hw1 Hl]]].
  unfold processSample. rewrite Ha.
  pose proof (cascade_coeffs (sections t1) x) as Hc.
  destruct (cascade (sections t1) x) as [secs out].
  do 2 eexists. split; [reflexivity|].
  apply wellFormed_sections; [exact Hw1|].
  simpl in Hc. now apply map_length_eq in Hc.
Qed.

Lemma processSamples_total (xs : list R) :
  forall this,
    wellFormed this ->
    exists this' out, processSamples this xs = Some (this', out) /\
                      wellFormed this' /\ length out = length xs.
Proof.
  induction xs as [|x xs IH]; intros this Hw; simpl.
  - do 2 eexists. repeat split; auto.
  - destruct (processSample_total this x Hw) as [t1 [y [-> Hw1]]].
    destruct (IH t1 Hw1) as [t2 [out [-> [Hw2 Hl]]]].
    do 2 eexists. split; [reflexivity|]. split; [exact Hw2 | simpl; lia].
Qed.

Lemma process_total (this : FilterProcessor) (input : option (list R)) :
  wellFormed this ->
  exists this' out, process this input = Some (this', out) /\
                    wellFormed this' /\
                    length out = match input with Some xs => length xs | None => 0%nat end.
Proof.
  intros Hw. unfold process. destruct input as [xs|].
  - destruct (sections this) eqn:Hs.
    + do 2 eexists. repeat split; auto.
    + apply processSamples_total, Hw.
  - do 2 eexists. repeat split; auto.
Qed.

Lemma update_wellFormed (this : FilterProcessor) (msg : list SOSSection) :
  wellFormed (_updateCoefficients this msg).
Proof.
  destruct (Nat.eq_dec (length msg) (length (sections this))) as [He|Hne].
  - rewrite update_same_count by exact He. intros _. simpl.
    do 2 eexists. repeat split.
    + now rewrite length_map.
    + now rewrite length_map, incoming_length.
  - rewrite update_other_count by exact Hne. intros Hc. discriminate Hc.
Qed.

Lemma reachable_wellFormed (this : FilterProcessor) :
  reachable this -> wellFormed this.
Proof.
  induction 1 as [|this msg _ _|this input this' out _ IH Hp].
  - intros Hc; discriminate Hc.
  - apply update_wellFormed.
  - destruct (process_total this input IH) as [t [o [Hp' [Hw _]]]].
    rewrite Hp in Hp'. now injection Hp' as -> _.
Qed.

(** X14: in every state the processor can reach from its constructor by
    messages and blocks, [process] returns: the interpolation block never
    reads a missing coefficient entry.  It writes one output sample per input
    sample. *)
Theorem process_never_throws (this : FilterProcessor) (input : option (list R)) :
  reachable this ->
  exists this' out,
    process this input = Some (this', out) /\
    length out = match input with Some xs => length xs | None => 0%nat end.
Proof.
  intros Hr. apply reachable_wellFormed in Hr.
  destruct (process_total this input Hr) as [t [o [Hp [_ Hl]]]].
  now exists t, o.
Qed.

Lemma process_never_throws_witness :
  exists this' out,
    process (_updateCoefficients oneSection unitMessage) (Some [1; 2; 3])
    = Some (this', out) /\ length out = 3%nat.
Proof.
  apply (process_never_throws (_updateCoefficients oneSection unitMessage) (Some [1; 2; 3])).
  apply reach_update. unfold oneSection. apply reach_update. apply reach_constructor.
Defined.

Lemma processSample_steady (this : FilterProcessor) (x : R) :
  interpolating this = false ->
  exists this' y, processSample this x = Some (this', y) /\
                  map coeffs (sections this') = map coeffs (sections this) /\
                  interpolating this' = false /\
                  oldCoeffs this' = oldCoeffs this /\
                  newCoeffs this' = newCoeffs this /\
                  interpPos this' = interpPos this.
Proof.
  intros Hi. unfold processSample, advance. rewrite Hi.
  pose proof (cascade_coeffs (sections this) x) as Hc.
  destruct (cascade (sections this) x) as [secs out].
  do 2 eexists. split; [reflexivity|]. simpl. repeat split; auto.
Qed.

(** X15: a processor that is not interpolating keeps its coefficients: after
    any number of samples every section has the coefficients it had, the
    processor still does not interpolate, and the stored transition is
    untouched; only the delay memory moves. *)
Theorem process_steady_coefficients (this : FilterProcessor) (blocks : list (list R)) :
  interpolating this = false ->
  exists this' out,
    processBlocks this blocks = Some (this', out) /\
    map coeffs (sections this') = map coeffs (sections this) /\
    interpolating this' = false /\
    oldCoeffs this' = oldCoeffs this /\
    newCoeffs this' = newCoeffs this /\
    interpPos this' = interpPos this.
Proof.
  intros Hi. destruct (sections this) as [|s0 secs] eqn:Hs.
  - rewrite processBlocks_idle by exact Hs.
    do 2 eexists. split; [reflexivity|]. rewrite Hs. repeat split; auto.
  - rewrite processBlocks_concat by (rewrite Hs; discriminate).
    rewrite <- Hs. clear Hs s0 secs.
    revert this Hi. induction (concat blocks) as [|x xs IH]; intros this Hi; simpl.
    + do 2 eexists. repeat split; auto.
    + destruct (processSample_steady this x Hi) as [t1 [y [-> [Hc [Hi1 [Ho [Hn Hp]]]]]]].
      destruct (IH t1 Hi1) as [t2 [out [-> [Hc2 [Hi2 [Ho2 [Hn2 Hp2]]]]]]].
      do 2 eexists. split; [reflexivity|]. repeat split; congruence.
Qed.

Lemma process_steady_coefficients_witness :
  exists this' out,
    processBlocks oneSection [[1]; [2; 3]] = Some (this', out) /\
    map coeffs (sections this') = map coeffs (sections oneSection) /\
    interpolating this' = false /\
    oldCoeffs this' = oldCoeffs oneSection /\
    newCoeffs this' = newCoeffs oneSection /\
    interpPos this' = interpPos oneSection.
Proof. apply (process_steady_coefficients oneSection [[1]; [2; 3]]). reflexivity. Defined.

(** X16: of two messages with the current section count that arrive before
    any sample is processed, the later one wins: the processor is as if only
    the later one had arrived. *)
Theorem update_latest_wins (this : FilterProcessor) (msg1 msg2 : list SOSSection) :
  length msg1 = length (sections this) ->
  length msg2 = length (sections this) ->
  _updateCoefficients (_updateCoefficients this msg1) msg2
  = _updateCoefficients this msg2.
Proof.
  intros H1 H2.
  rewrite (update_same_count this msg1 H1).
  rewrite (update_same_count this msg2 H2).
  rewrite update_same_count by (simpl; exact H2). reflexivity.
Qed.

Lemma update_latest_wins_witness :
  _updateCoefficients (_updateCoefficients oneSection unitMessage)
                      [mkSOS (2, 0, 0) (1, 0, 0)]
  = _updateCoefficients oneSection [mkSOS (2, 0, 0) (1, 0, 0)].
Proof.
  apply (update_latest_wins oneSection unitMessage [mkSOS (2, 0, 0) (1, 0, 0)]);
    reflexivity.
Defined.

Lemma cascade_zeroed (cs : list Coeffs) :
  forall x, snd (cascade (map (fun c => mkSection c 0 0 0 0) cs) x) = throughZeroed cs x.
Proof.
  unfold throughZeroed.
  induction cs as [|c cs IH]; intros x; simpl; auto.
  specialize (IH (b0 c * x + b1 c * 0 + b2 c * 0 - a1 c * 0 - a2 c * 0)).
  destruct (cascade _ _) as [rest out]. simpl in *. rewrite IH.
  f_equal. ring.
Qed.

(** X17: the first sample after a reset is filtered through zeroed delay
    memory: the output is the input times the [b0] of every incoming
    section. *)
Theorem first_sample_after_reset
        (this : FilterProcessor) (msg : list SOSSection) (x : R) :
  length msg <> length (sections this) ->
  exists this',
    processSample (_updateCoefficients this msg) x
    = Some (this', throughZeroed (incoming msg) x).
Proof.
  intros Hne. rewrite update_other_count by exact Hne.
  unfold processSample, advance. cbn [interpolating sections].
  pose proof (cascade_zeroed (incoming msg) x) as Hc.
  destruct (cascade _ x) as [secs out]. simpl in Hc. subst out.
  eexists. reflexivity.
Qed.

Lemma first_sample_after_reset_witness :
  exists this',
    processSample (_updateCoefficients constructor unitMessage) 5
    = Some (this', throughZeroed (incoming unitMessage) 5).
Proof.
  apply (first_sample_after_reset constructor unitMessage 5). simpl. lia.
Defined.

(** * Properties of [butterworth.ts] *)

(** X18: the earlier Butterworth module and the design engine agree: they
    generate the same analog poles, [bilinearTransform] is [bilinear] of the
    pole scaled by the analog cutoff, and the z-plane poles of the module are
    the images of the scaled Butterworth poles under the prewarped cutoff of
    the engine. *)
Theorem butterworth_module_agrees
        (params : FilterParams) (sampleRate analogCutoff : R) (sPole : Complex) :
  Butterworth.getAnalogPoles (order params) = butterworthPoles (order params) /\
  Butterworth.bilinearTransform sPole analogCutoff sampleRate
  = bilinear (mkC (analogCutoff * re sPole) (analogCutoff * im sPole)) sampleRate /\
  Butterworth.pz_poles (Butterworth.getZPlanePolesAndZeros params sampleRate)
  = map (fun p => bilinear (mkC (omegaA params sampleRate * re p)
                                (omegaA params sampleRate * im p)) sampleRate)
        (butterworthPoles (order params)).
Proof. repeat split. Qed.

(** X19: [getZPlanePolesAndZeros] returns one pole and one zero per unit of
    the order, every zero at (-1, 0) for lowpass and (1, 0) for highpass, and
    below Nyquist every pole strictly inside the unit circle. *)
Theorem getZPlanePolesAndZeros_counts_and_stability
        (params : FilterParams) (sampleRate : R) :
  let pz := Butterworth.getZPlanePolesAndZeros params sampleRate in
  length (Butterworth.pz_poles pz) = Z.to_nat (order params) /\
  length (Butterworth.pz_zeros pz) = Z.to_nat (order params) /\
  Forall (fun z => z = mkC (zeroZ params) 0) (Butterworth.pz_zeros pz) /\
  (0 < cutoffFrequency params < sampleRate / 2 ->
   Forall (fun z => Cabs z < 1) (Butterworth.pz_poles pz)).
Proof.
  intros pz.
  unfold pz, Butterworth.getZPlanePolesAndZeros.
  cbn [Butterworth.pz_poles Butterworth.pz_zeros].
  change (Butterworth.getAnalogPoles (order params)) with (butterworthPoles (order params)).
  replace (match type params with lowpass => -1 | highpass => 1 end)
    with (zeroZ params) by reflexivity.
  repeat split.
  - now rewrite length_map, butterworthPoles_length.
  - apply repeat_length.
  - apply Forall_forall. intros z Hin. now apply repeat_spec in Hin.
  - intros Hfc. apply Forall_map.
    eapply Forall_impl; [|apply butterworthPoles_left].
    intros p Hp'.
    change (Butterworth.bilinearTransform p
              (2 * sampleRate * tan (2 * PI * cutoffFrequency params / sampleRate / 2))
              sampleRate)
      with (bilinear (mkC (omegaA params sampleRate * re p)
                          (omegaA params sampleRate * im p)) sampleRate).
    apply bilinear_stable; simpl; [lra|].
    pose proof (omegaA_pos params sampleRate Hfc). nra.
Qed.

Lemma getZPlanePolesAndZeros_counts_and_stability_witness :
  Forall (fun z => Cabs z < 1)
         (Butterworth.pz_poles (Butterworth.getZPlanePolesAndZeros spec_butter4 44100)).
Proof.
  destruct (getZPlanePolesAndZeros_counts_and_stability spec_butter4 44100)
    as [_ [_ [_ H]]].
  apply H. simpl; lra.
Defined.

(** X20: for an order of at least 1, [getButterworthSections] returns
    [ceil(order / 2)] sections; every one has a Q of at least 1/2, and a
    first-order section is present exactly when the order is odd. *)
Theorem getButterworthSections_count_and_Q (order : Z) :
  (1 <= order)%Z ->
  let secs := Butterworth.getButterworthSections order in
  length secs = Z.to_nat ((order + 1) / 2) /\
  Forall (fun s => 1 / 2 <= Butterworth.Q s) secs /\
  (Exists (fun s => Butterworth.isFirstOrder s = true) secs <-> Z.odd order = true).
Proof.
  intros Ho secs. unfold secs, Butterworth.getButterworthSections.
  assert (Hrem : Z.rem order 2 = (order mod 2)%Z) by (apply Z.rem_mod_nonneg; lia).
  rewrite Hrem.
  assert (Hodd : Z.odd order = (order mod 2 =? 1)%Z).
  { rewrite Zmod_odd. destruct (Z.odd order); reflexivity. }
  assert (Hbiq : Forall (fun s => 1 / 2 <= Butterworth.Q s /\ Butterworth.isFirstOrder s = false)
                   (map (fun k =>
                           Butterworth.mkBiquad
                             (1 / (2 * cos (PI * (2 * IZR k + 1) / (2 * IZR order)))) false)
                        (range (order / 2)))).
  { apply Forall_map, Forall_forall. intros k Hk. apply in_range in Hk. simpl.
    split; [|reflexivity].
    assert (Hk2 : (2 * k + 2 <= order)%Z).
    { pose proof (Z.mul_div_le order 2). lia. }
    assert (HK : 0 <= IZR k) by (apply IZR_le; lia).
    assert (HN : 2 * IZR k + 2 <= IZR order).
    { replace (2 * IZR k + 2) with (IZR (2 * k + 2))
        by (rewrite plus_IZR, mult_IZR; reflexivity).
      apply IZR_le; exact Hk2. }
    pose proof PI_RGT_0 as Hpi.
    set (K := IZR k) in *. set (N := IZR order) in *.
    assert (Hq : 0 < PI * (2 * K + 1) / (2 * N)) by (apply Rdiv_lt_0_compat; nra).
    assert (Hs : 0 < PI * (N - 2 * K - 1) / (2 * N)) by (apply Rdiv_lt_0_compat; nra).
    assert (Hlt : PI * (2 * K + 1) / (2 * N) < PI / 2).
    { replace (PI * (2 * K + 1) / (2 * N))
        with (PI / 2 - PI * (N - 2 * K - 1) / (2 * N)) by (field; lra).
      lra. }
    assert (Hc : 0 < cos (PI * (2 * K + 1) / (2 * N))) by (apply cos_gt_0; lra).
    pose proof (COS_bound (PI * (2 * K + 1) / (2 * N))) as [_ Hc1].
    set (c := cos (PI * (2 * K + 1) / (2 * N))) in *.
    apply Rmult_le_reg_r with (2 * c); [lra|].
    replace (1 / (2 * c) * (2 * c)) with 1 by (field; lra). lra. }
  repeat split.
  - rewrite length_app, length_map, range_length.
    destruct (order mod 2 =? 1)%Z eqn:E; simpl.
    + apply Z.eqb_eq in E.
      pose proof (Z.div_mod order 2). pose proof (Z.div_mod (order + 1) 2).
      pose proof (Z.mod_pos_bound (order + 1) 2).
      assert ((order + 1) / 2 = order / 2 + 1)%Z by lia. lia.
    + apply Z.eqb_neq in E.
      pose proof (Z.div_mod order 2). pose proof (Z.div_mod (order + 1) 2).
      pose proof (Z.mod_pos_bound order 2). pose proof (Z.mod_pos_bound (order + 1) 2).
      assert ((order + 1) / 2 = order / 2)%Z by lia. lia.
  - apply Forall_app. split.
    + eapply Forall_impl; [|exact Hbiq]. now intros s [H _].
    + destruct (order mod 2 =? 1)%Z; [|apply Forall_nil].
      apply Forall_cons; [simpl; lra | apply Forall_nil].
  - intros Hex. rewrite Hodd. apply Exists_app in Hex as [Hex|Hex].
    + apply Exists_exists in Hex as [s [Hin Hs]].
      rewrite Forall_forall in Hbiq. destruct (Hbiq s Hin) as [_ Hf]. congruence.
    + destruct (order mod 2 =? 1)%Z; [reflexivity | inversion Hex].
  - intros Ho'. rewrite Hodd in Ho'. rewrite Ho'.
    apply Exists_app. right. constructor. reflexivity.
Qed.

Lemma getButterworthSections_count_and_Q_witness :
  length (Butterworth.getButterworthSections 5) = 3%nat.
Proof.
  assert (Ho : (1 <= 5)%Z) by lia.
  destruct (getButterworthSections_count_and_Q 5 Ho) as [H _]. exact H.
Defined.

(** X21: [computeFrequencyResponse] returns three arrays of [numPoints]
    entries, and with at least one point the magnitude at the reference
    index, 0 for lowpass and [numPoints - 1] for highpass, is exactly 0 dB
    after the normalization. *)
Theorem computeFrequencyResponse_normalized
        (params : FilterParams) (sampleRate : R) (numPoints : nat) :
  let r := Butterworth.computeFrequencyResponse params sampleRate numPoints in
  length (r_frequencies r) = numPoints /\
  length (r_magnitudeDb r) = numPoints /\
  length (r_phase r) = numPoints /\
  ((1 <= numPoints)%nat ->
   nth (match type params with lowpass => 0 | highpass => numPoints - 1 end)%nat
       (r_magnitudeDb r) 1 = 0).
Proof.
  intros r. unfold r, Butterworth.computeFrequencyResponse.
  cbn [r_frequencies r_magnitudeDb r_phase].
  rewrite !length_map, length_seq. repeat split.
  intros Hn.
  set (mags := map fst (map (Butterworth.responseAt _ sampleRate numPoints) (seq 0 numPoints))).
  set (idx := match type params with lowpass => 0%nat | highpass => (numPoints - 1)%nat end).
  assert (Hlen : length mags = numPoints)
    by (unfold mags; now rewrite !length_map, length_seq).
  assert (Hidx : (idx < length mags)%nat)
    by (unfold idx; destruct (type params); lia).
  rewrite nth_indep with (d' := (fun m => m - nth idx mags 0) 0)
    by (now rewrite length_map).
  rewrite (map_nth (fun m => m - nth idx mags 0)). ring.
Qed.

Lemma computeFrequencyResponse_normalized_witness :
  nth 7 (r_magnitudeDb (Butterworth.computeFrequencyResponse
                          (mkParams butterworth highpass 2 1000 1) 44100 8)) 1 = 0.
Proof.
  destruct (computeFrequencyResponse_normalized
              (mkParams butterworth highpass 2 1000 1) 44100 8) as [_ [_ [_ H]]].
  apply H. lia.
Defined.

(** * The pairing on lists with adjacent conjugates *)

Lemma nth_boundary (i m k : nat) :
  nth k (repeat true i ++ repeat false m) false = (k <? i)%nat.
Proof.
  revert k; induction i as [|i IH]; intros k; simpl.
  - destruct (Nat.lt_ge_cases k m).
    + rewrite nth_repeat_lt by lia. reflexivity.
    + rewrite nth_overflow by (rewrite repeat_length; lia). reflexivity.
  - destruct k; [reflexivity|]. apply IH.
Qed.

Lemma mark_boundary_tail (i : nat) (u : list bool) :
  mark i (repeat true i ++ false :: u) = repeat true (S i) ++ u.
Proof.
  induction i as [|i IH]; [reflexivity|].
  cbn [repeat app mark]. now rewrite IH.
Qed.

Lemma mark_boundary (i m : nat) :
  mark i (repeat true i ++ repeat false (S m)) = repeat true (S i) ++ repeat false m.
Proof. apply mark_boundary_tail. Qed.

Lemma pairStep_fold_adjacent (rest : list Complex) (s : list AnalogSOS) :
  adjacentPairs rest s ->
  forall pre secs,
    fold_left (pairStep (pre ++ rest)) (seq (length pre) (length rest))
              (repeat true (length pre) ++ repeat false (length rest), secs)
    = (repeat true (length pre + length rest), secs ++ s).
Proof.
  induction 1 as [|p rest s Hreal _ IH|p q rest s Hcomplex Hre Him _ IH];
    intros pre secs.
  - simpl. now rewrite !app_nil_r, Nat.add_0_r.
  - cbn [length seq fold_left]. unfold pairStep at 2.
    rewrite nth_boundary, Nat.ltb_irrefl, nth_middle.
    apply ltb_true in Hreal. rewrite Hreal, mark_boundary.
    specialize (IH (pre ++ [p]) (secs ++ [OnePole (mkC (re p) 0)])).
    rewrite <- !app_assoc, length_app in IH. cbn [length app] in IH.
    replace (length pre + 1)%nat with (S (length pre)) in IH by lia.
    rewrite IH. f_equal. f_equal. lia.
  - cbn [length seq fold_left]. unfold pairStep at 3.
    rewrite nth_boundary, Nat.ltb_irrefl, nth_middle.
    apply ltb_false in Hcomplex. rewrite Hcomplex.
    assert (Hq : nth (S (length pre)) (pre ++ p :: q :: rest) c0 = q).
    { replace (pre ++ p :: q :: rest) with ((pre ++ [p]) ++ q :: rest)
        by (now rewrite <- app_assoc).
      replace (S (length pre)) with (length (pre ++ [p]))
        by (rewrite length_app; simpl; lia).
      apply nth_middle. }
    assert (Hfind : findPartner (pre ++ p :: q :: rest)
                      (repeat true (length pre) ++ repeat false (S (S (length rest))))
                      (length pre) = Some (S (length pre))).
    { unfold findPartner. rewrite length_app. cbn [length].
      replace (length pre + S (S (length rest)) - S (length pre))%nat
        with (S (length rest)) by lia.
      cbn [seq find]. unfold isPartner.
      rewrite nth_boundary, nth_middle, Hq.
      replace (S (length pre) <? length pre)%nat with false
        by (symmetry; apply Nat.ltb_ge; lia).
      apply ltb_true in Hre, Him. rewrite Hre, Him. reflexivity. }
    rewrite Hfind, Hq, mark_boundary, mark_boundary.
    unfold pairStep at 2.
    rewrite nth_boundary.
    replace (S (length pre) <? S (S (length pre)))%nat with true
      by (symmetry; apply Nat.ltb_lt; lia).
    specialize (IH (pre ++ [p; q]) (secs ++ [TwoPoles p q])).
    rewrite <- !app_assoc, length_app in IH. cbn [length app] in IH.
    replace (length pre + 2)%nat with (S (S (length pre))) in IH by lia.
    rewrite IH. f_equal. f_equal. lia.
Qed.

Lemma pairConjugatePoles_of_adjacent (poles : list Complex) (secs : list AnalogSOS) :
  adjacentPairs poles secs -> pairConjugatePoles poles = secs.
Proof.
  intros H. unfold pairConjugatePoles.
  pose proof (pairStep_fold_adjacent poles secs H [] []) as Hf.
  simpl in Hf. now rewrite Hf.
Qed.

(** Settles a comparison of the magnitude of a concrete number. *)

Ltac abs_lra := cbn [re im]; unfold Math.abs, Rabs; destruct (Rcase_abs _); lra.

(** Builds the sections of a concrete pole list with adjacent conjugates. *)
Ltac adjacent_run :=
  repeat first
    [ apply adjacent_nil
    | eapply adjacent_real; [solve [abs_lra] |]
    | eapply adjacent_pair; [solve [abs_lra] | solve [abs_lra] | solve [abs_lra] |] ].

Lemma besselPoles_adjacent (order : Z) :
  exists secs,
    adjacentPairs (besselPoles order) secs /\
    Forall paired secs /\
    ((1 <= order <= 8)%Z -> length secs = Z.to_nat ((order + 1) / 2)) /\
    ((order < 1 \/ 8 < order)%Z -> length secs = 1%nat).
Proof.
  destruct (Z_lt_le_dec order 1) as [Hlo|Hlo];
    [|destruct (Z_lt_le_dec 8 order) as [Hhi|Hhi]].
  1,2: rewrite besselPoles_fallback by lia; cbn [DATA2 entry_poles];
    eexists; split; [adjacent_run|];
    split; [repeat (apply Forall_cons || apply Forall_nil); unfold paired, conjugate; cbn [re im];
            try (f_equal; lra); try lra|];
    split; intros; [lia | reflexivity].
  assert (Hc : (order = 1 \/ order = 2 \/ order = 3 \/ order = 4 \/
                order = 5 \/ order = 6 \/ order = 7 \/ order = 8)%Z) by lia.
  repeat (destruct Hc as [Hc|Hc]); subst order;
    unfold besselPoles; cbn [DATA entry_poles omega3dB map re im];
    (eexists; split; [adjacent_run|];
     split; [repeat (apply Forall_cons || apply Forall_nil); unfold paired, conjugate; cbn [re im];
             try (f_equal; lra); try lra|];
     split; intros; [reflexivity | lia]).
Qed.

(** X22: when every pole of the input is real within the tolerance or is
    immediately followed by its conjugate within the tolerance,
    [pairConjugatePoles] pairs each pole with its successor: it returns one
    section per real pole and per adjacent pair, in input order, and never
    takes the unmatched-pole fallback. *)
Theorem pairConjugatePoles_adjacent (poles : list Complex) (secs : list AnalogSOS) :
  adjacentPairs poles secs -> pairConjugatePoles poles = secs.
Proof. apply pairConjugatePoles_of_adjacent. Qed.

Lemma pairConjugatePoles_adjacent_witness :
  pairConjugatePoles [mkC (-1) 1; mkC (-1) (-1); mkC (-2) 0]
  = [TwoPoles (mkC (-1) 1) (mkC (-1) (-1)); OnePole (mkC (-2) 0)].
Proof.
  apply (pairConjugatePoles_adjacent
           [mkC (-1) 1; mkC (-1) (-1); mkC (-2) 0]
           [TwoPoles (mkC (-1) 1) (mkC (-1) (-1)); OnePole (mkC (re (mkC (-2) 0)) 0)]).
  adjacent_run.
Defined.

(** X23: for every order, the Bessel poles pair without the unmatched-pole
    fallback: every section holds a real pole or a pole and its exact
    conjugate.  For the tabulated orders 1..8 there are [ceil(order / 2)]
    sections, and so many sections has the Bessel design; outside the table
    there is the one section of the order-2 entry. *)
Theorem besselPoles_pairing
        (params : FilterParams) (sampleRate : R) (numFreqPoints : nat) :
  family params = bessel ->
  let secs := pairConjugatePoles (besselPoles (order params)) in
  Forall paired secs /\
  length (sos (designFilter params sampleRate numFreqPoints)) = length secs /\
  ((1 <= order params <= 8)%Z -> length secs = Z.to_nat ((order params + 1) / 2)) /\
  ((order params < 1 \/ 8 < order params)%Z -> length secs = 1%nat).
Proof.
  intros Hf secs.
  destruct (besselPoles_adjacent (order params)) as [s [Hadj [Hp [Hin Hout]]]].
  apply pairConjugatePoles_of_adjacent in Hadj.
  unfold secs. rewrite Hadj. split; [exact Hp|]. split; [|split; assumption].
  rewrite designFilter_sos. unfold buildSOS, getAnalogPoles. rewrite Hf, Hadj.
  destruct (buildSOS_lengths params sampleRate s (mkBuild [] [] [])) as [_ [_ H3]].
  rewrite H3. reflexivity.
Qed.

Lemma besselPoles_pairing_witness :
  length (sos (designFilter spec_bessel3_hp 48000 512)) = 2%nat.
Proof.
  destruct (besselPoles_pairing spec_bessel3_hp 48000 512 eq_refl) as [_ [Hl [Hin _]]].
  rewrite Hl. apply Hin. simpl. lia.
Defined.
